(** * Huffman image compressor: a shallow embedding of [image_compressor.py]

    The development follows the Python source function by function.
    Python values are modelled as follows.

    - [str] values that hold bit sequences (codes, [encoded_data],
      [binary_data]) are [list ascii]; the keys of the JSON code table are
      [string].
    - A [dict] is an association list in insertion order: assigning to an
      existing key replaces the value in place, assigning to a new key
      appends the entry.  This is the order [items()] and [json.dump] see.
    - Exceptions are the [Raise] results of a small error monad.
    - The pixels are the [numpy.uint8] values of the flattened image, as
      integers in [0,255].
    - The two files written by [save_compressed] are the record
      [compressed_files]; the raster handed to [Image.fromarray] is an
      [ndarray] (shape and row-major data). *)

From Stdlib Require Import ZArith List Ascii String DecimalString DecimalZ SpecFloat.
From Stdlib.Strings Require Import Byte.
From stdpp Require Import base list strings numbers.

Set Default Proof Using "Type".
Open Scope nat_scope.

(** ** Exceptions *)

Inductive exn : Set :=
  | IndexError
  | KeyError
  | ValueError
  | AttributeError
  | OverflowError
  | ZeroDivisionError.

Inductive result (A : Type) : Type :=
  | Ok (a : A)
  | Raise (e : exn).
Arguments Ok {A} a.
Arguments Raise {A} e.

#[global] Instance result_ret : MRet result := λ A a, Ok a.
#[global] Instance result_bind : MBind result := λ A B f m,
  match m with
  | Ok a => f a
  | Raise e => Raise e
  end.

(** A [for] loop whose body may raise: the state is threaded through the
    elements from left to right. *)
Fixpoint for_ {S X : Type} (xs : list X) (body : S → X → result S) (s : S)
  : result S :=
  match xs with
  | [] => Ok s
  | x :: xs => s' ← body s x; for_ xs body s'
  end.

(** ** Python dictionaries, in insertion order *)

Abbreviation dict K V := (list (K * V)).
Abbreviation bitstring := (list ascii).

Section dict.
Context {K V : Type} `{EqDecision K}.

(** [d.get(k)] *)
Fixpoint dict_get (k : K) (d : dict K V) : option V :=
  match d with
  | [] => None
  | (k', v') :: d => if decide (k = k') then Some v' else dict_get k d
  end.

(** [d[k] = v] *)
Fixpoint dict_set (k : K) (v : V) (d : dict K V) : dict K V :=
  match d with
  | [] => [(k, v)]
  | (k', v') :: d =>
      if decide (k = k') then (k', v) :: d else (k', v') :: dict_set k v d
  end.

(** [d[k]] *)
Definition dict_getitem (d : dict K V) (k : K) : result V :=
  match dict_get k d with
  | Some v => Ok v
  | None => Raise KeyError
  end.

(** [k in d] *)
Definition dict_contains (k : K) (d : dict K V) : bool :=
  bool_decide (is_Some (dict_get k d)).
End dict.

(** ** Lists used as arrays *)

Section pylist.
Context {A : Type}.

(** [l[i]] for [i >= 0] *)
Definition list_getitem (l : list A) (i : nat) : result A :=
  match l !! i with
  | Some x => Ok x
  | None => Raise IndexError
  end.

(** [l[i] = x] for [i >= 0] *)
Definition list_setitem (l : list A) (i : nat) (x : A) : result (list A) :=
  if decide (i < length l) then Ok (<[i:=x]> l) else Raise IndexError.

(** [l.pop()] *)
Definition list_pop (l : list A) : result (A * list A) :=
  match list.last l with
  | Some x => Ok (x, take (length l - 1) l)
  | None => Raise IndexError
  end.
End pylist.

(** ** The [heapq] module of the Python library

    [heappush] and [heappop] as in CPython's [Lib/heapq.py]; the only
    operation they use on the elements is [<], that is [__lt__].  The two
    sifting loops are recursive on a counter that bounds the number of
    iterations: [pos] halves in [_siftdown], and [pos] grows up to [endpos]
    in [_siftup], so the counter reaches [0] only when the loop condition is
    false (lemmas [_siftdown_loop_fuel] and [_siftup_loop_fuel]). *)

Class PyLt (A : Type) := py_lt : A → A → bool.

Module heapq.
Section heapq.
Context {A : Type} `{PyLt A}.

Fixpoint _siftdown_loop (n : nat) (heap : list A) (startpos : nat)
    (newitem : A) (pos : nat) : result (list A) :=
  match n with
  | S n' =>
      if decide (startpos < pos) then
        let parentpos := (pos - 1) / 2 in
        parent ← list_getitem heap parentpos;
        if py_lt newitem parent then
          heap ← list_setitem heap pos parent;
          _siftdown_loop n' heap startpos newitem parentpos
        else list_setitem heap pos newitem
      else list_setitem heap pos newitem
  | 0 => list_setitem heap pos newitem
  end.

Definition _siftdown (heap : list A) (startpos pos : nat)
  : result (list A) :=
  newitem ← list_getitem heap pos;
  _siftdown_loop pos heap startpos newitem pos.

Fixpoint _siftup_loop (n : nat) (heap : list A) (endpos : nat) (pos : nat)
  : result (list A * nat) :=
  match n with
  | S n' =>
      let childpos := 2 * pos + 1 in
      if decide (childpos < endpos) then
        let rightpos := childpos + 1 in
        childpos ←
          (if decide (rightpos < endpos) then
             c ← list_getitem heap childpos;
             r ← list_getitem heap rightpos;
             Ok (if negb (py_lt c r) then rightpos else childpos)
           else Ok childpos);
        child ← list_getitem heap childpos;
        heap ← list_setitem heap pos child;
        _siftup_loop n' heap endpos childpos
      else Ok (heap, pos)
  | 0 => Ok (heap, pos)
  end.

Definition _siftup (heap : list A) (pos : nat) : result (list A) :=
  let endpos := length heap in
  let startpos := pos in
  newitem ← list_getitem heap pos;
  '(heap, pos) ← _siftup_loop (endpos - pos) heap endpos pos;
  heap ← list_setitem heap pos newitem;
  _siftdown heap startpos pos.

Definition heappush (heap : list A) (item : A) : result (list A) :=
  let heap := heap ++ [item] in
  _siftdown heap 0 (length heap - 1).

Definition heappop (heap : list A) : result (A * list A) :=
  '(lastelt, heap) ← list_pop heap;
  match heap with
  | _ :: _ =>
      returnitem ← list_getitem heap 0;
      heap ← list_setitem heap 0 lastelt;
      heap ← _siftup heap 0;
      Ok (returnitem, heap)
  | [] => Ok (lastelt, heap)
  end.
End heapq.
End heapq.

(** ** [class HuffmanNode]

    A node built by [HuffmanNode(value, freq)] has a value and no children
    ([Leaf]); a node built by [HuffmanNode(freq=...)] has [value = None] and
    receives both children right after its construction ([Internal]).  The
    test [node.value is not None] is the test for [Leaf]. *)

Inductive HuffmanNode : Type :=
  | Leaf (value : Z) (freq : nat)
  | Internal (freq : nat) (left right : HuffmanNode).

Definition freq (node : HuffmanNode) : nat :=
  match node with
  | Leaf _ f => f
  | Internal f _ _ => f
  end.

(** [HuffmanNode.__lt__] *)
#[global] Instance HuffmanNode_lt : PyLt HuffmanNode :=
  λ self other, bool_decide (freq self < freq other).

(** ** [class ImageCompressor] *)

Record ImageCompressor : Type := {
  huffman_codes : dict Z bitstring;
  huffman_tree : option HuffmanNode
}.

(** [ImageCompressor.__init__] *)
Definition __init__ : ImageCompressor :=
  {| huffman_codes := []; huffman_tree := None |}.

(** [frequencies] is a [defaultdict(int)]: a missing key reads as [0]. *)
Definition calculate_frequencies (pixel_array : list Z) : dict Z nat :=
  foldl (λ frequencies pixel,
           dict_set pixel (default 0 (dict_get pixel frequencies) + 1)
             frequencies)
        [] pixel_array.

(** The [while len(heap) > 1] loop; every iteration shortens the heap by
    one, so [n = length heap] iterations are enough
    (lemma [build_huffman_tree_loop_fuel]). *)
Fixpoint build_huffman_tree_loop (n : nat) (heap : list HuffmanNode)
  : result (list HuffmanNode) :=
  match n with
  | S n' =>
      if decide (1 < length heap) then
        popped ← heapq.heappop heap;
        let left := popped.1 in
        popped ← heapq.heappop popped.2;
        let right := popped.1 in
        let heap := popped.2 in
        let internal_node := Internal (freq left + freq right) left right in
        heap ← heapq.heappush heap internal_node;
        build_huffman_tree_loop n' heap
      else Ok heap
  | 0 => Ok heap
  end.

Definition build_huffman_tree (self : ImageCompressor)
    (frequencies : dict Z nat) : result ImageCompressor :=
  heap ← for_ frequencies
           (λ heap '(value, freq), heapq.heappush heap (Leaf value freq)) [];
  heap ← build_huffman_tree_loop (length heap) heap;
  root ← list_getitem heap 0;
  Ok {| huffman_codes := huffman_codes self; huffman_tree := Some root |}.

(** The body of [generate_huffman_codes] for a node that is not [None]. *)
Fixpoint generate_huffman_codes_at (huffman_codes : dict Z bitstring)
    (node : HuffmanNode) (code : bitstring) : dict Z bitstring :=
  match node with
  | Leaf value _ => dict_set value code huffman_codes
  | Internal _ node_left node_right =>
      let huffman_codes :=
        generate_huffman_codes_at huffman_codes node_left
          (code ++ ["0"%char]) in
      generate_huffman_codes_at huffman_codes node_right (code ++ ["1"%char])
  end.

(** [generate_huffman_codes()] with the default arguments [node=None] and
    [code=""], as [compress] calls it: the node is [self.huffman_tree]. *)
Definition generate_huffman_codes (self : ImageCompressor)
  : result ImageCompressor :=
  match huffman_tree self with
  | None => Raise AttributeError
  | Some node =>
      Ok {| huffman_codes :=
              generate_huffman_codes_at (huffman_codes self) node [];
            huffman_tree := huffman_tree self |}
  end.

Definition encode_image (self : ImageCompressor) (pixel_array : list Z)
  : result bitstring :=
  for_ pixel_array
    (λ encoded_data pixel,
       code ← dict_getitem (huffman_codes self) pixel;
       Ok (encoded_data ++ code))
    [].

(** *** Conversions used by the two files *)

(** [str(k)] and [int(k)] on decimal numerals.  The keys that [int] reads
    here are the ones [str] wrote; the other spellings that Python's [int]
    accepts (blanks, a [+] sign, underscores) are not modelled. *)
Definition py_str (k : Z) : string := NilZero.string_of_int (Z.to_int k).

Definition py_int (s : string) : result Z :=
  match NilZero.int_of_string s with
  | Some d => Ok (Z.of_int d)
  | None => Raise ValueError
  end.

(** [int(s, 2)] on a string of binary digits: [encoded_data] is made of
    codes, and the codes are made of ['0'] and ['1'] (lemma
    [tree_codes_bits]).  Any other character raises here. *)
Definition int_base2 (s : bitstring) : result N :=
  match s with
  | [] => Raise ValueError
  | _ =>
      for_ s
        (λ acc c,
           if decide (c = "0"%char) then Ok (2 * acc)%N
           else if decide (c = "1"%char) then Ok (2 * acc + 1)%N
           else Raise ValueError)
        0%N
  end.

(** A value stored in a [bytes] or [bytearray] must be in [range(256)]. *)
Definition byte_of_int (n : N) : result byte :=
  match Byte.of_N n with
  | Some b => Ok b
  | None => Raise ValueError
  end.

(** [format(byte, '08b')] *)
Definition format_08b (b : byte) : bitstring :=
  (λ i : N, if N.testbit (Byte.to_N b) i then "1"%char else "0"%char)
    <$> [7; 6; 5; 4; 3; 2; 1; 0]%N.

(** [range(0, stop, step)] and the slice [s[i:j]] for [0 <= i <= j]. *)
Definition range_step (stop step : nat) : list nat :=
  (λ j, j * step) <$> seq 0 ((stop + step - 1) / step).

Definition slice {A} (s : list A) (i j : nat) : list A :=
  take (j - i) (drop i s).

(** The content of [output_path + ".bin"] and of
    [output_path + "_codes.json"]. *)
Record compressed_files : Type := {
  bin_file : list byte;
  codes_json : dict string bitstring
}.

Definition save_compressed (encoded_data : bitstring)
    (codes : dict Z bitstring) : result compressed_files :=
  let padded_length := 8 - length encoded_data `mod` 8 in
  let encoded_data := encoded_data ++ replicate padded_length "0"%char in
  byte_array ← for_ (range_step (length encoded_data) 8)
                  (λ byte_array i,
                     let byte := slice encoded_data i (i + 8) in
                     n ← int_base2 byte;
                     b ← byte_of_int n;
                     Ok (byte_array ++ [b]))
                  [];
  padding_byte ← byte_of_int (N.of_nat padded_length);
  Ok {| bin_file := padding_byte :: byte_array;
        codes_json :=
          foldl (λ acc '(k, v), dict_set (py_str k) v acc) [] codes |}.

(** *** Statistics

    [compressed_size/original_size * 100] on Python integers is a [float]:
    the quotient of the two integers rounded to binary64, times [100.0],
    rounded again.  [SpecFloat] gives these operations on [Z] mantissas. *)

Definition float_of_int (z : Z) : spec_float :=
  match z with
  | Z0 => S754_zero false
  | Zpos p => S754_finite false p 0
  | Zneg p => S754_finite true p 0
  end.

Definition calculate_compression_ratio (original_size compressed_size : nat)
  : result spec_float :=
  if decide (original_size = 0) then Raise ZeroDivisionError
  else
    let q := SFdiv 53 1024 (float_of_int (Z.of_nat compressed_size))
                           (float_of_int (Z.of_nat original_size)) in
    Ok (SFmul 53 1024 q (float_of_int 100)).

Record stats : Type := {
  original_size : nat * nat;
  compression_ratio : spec_float;
  original_bits : nat;
  compressed_bits : nat
}.

(** *** Decoding *)

(** A two-dimensional [numpy] array of [uint8]: its shape [(rows, columns)]
    and its elements in row-major order. *)
Record ndarray : Type := {
  shape : nat * nat;
  data : list Z
}.

(** [np.array(l, dtype=np.uint8)]: integers of [range(256)] are stored
    unchanged; NumPy rejects a Python integer out of that range. *)
Definition np_array_uint8 (l : list Z) : result (list Z) :=
  for_ l
    (λ acc x,
       if decide (0 ≤ x < 256)%Z then Ok (acc ++ [x]) else Raise OverflowError)
    [].

(** [a.reshape((rows, columns))] *)
Definition reshape (a : list Z) (new_shape : nat * nat) : result ndarray :=
  if decide (new_shape.1 * new_shape.2 = length a)
  then Ok {| shape := new_shape; data := a |}
  else Raise ValueError.

(** One iteration of [for bit in binary_data]; the state is
    [(current_code, decoded_pixels)]. *)
Definition decode_step (reverse_codes : dict bitstring Z)
    (st : bitstring * list Z) (bit : ascii) : bitstring * list Z :=
  let '(current_code, decoded_pixels) := st in
  let current_code := current_code ++ [bit] in
  match dict_get current_code reverse_codes with
  | Some pixel => ([], decoded_pixels ++ [pixel])
  | None => (current_code, decoded_pixels)
  end.

(** [padding_length], [binary_data] and [reverse_codes] as [decode_image]
    computes them from the two files. *)
Definition read_padding_length (bin : list byte) : nat :=
  match bin with
  | [] => 0
  | b :: _ => N.to_nat (Byte.to_N b)
  end.

Definition read_binary_data (bin : list byte) : bitstring :=
  let padding_length := read_padding_length bin in
  let byte_data := tail bin in
  let binary_data :=
    foldl (λ binary_data byte, binary_data ++ format_08b byte) [] byte_data in
  if decide (0 < padding_length)
  then take (length binary_data - padding_length) binary_data
  else binary_data.

Definition load_codes (json : dict string bitstring)
  : result (dict Z bitstring) :=
  for_ json (λ codes '(k, v), k' ← py_int k; Ok (dict_set k' v codes)) [].

Definition make_reverse_codes (codes : dict Z bitstring) : dict bitstring Z :=
  foldl (λ acc '(k, v), dict_set v k acc) [] codes.

(** The result is the array that [decode_image] hands to
    [Image.fromarray]: building the image and saving it belong to the
    raster library, which does not accept an array without elements. *)
Definition decode_image (files : compressed_files)
    (original_size : nat * nat) : result ndarray :=
  codes ← load_codes (codes_json files);
  let binary_data := read_binary_data (bin_file files) in
  let reverse_codes := make_reverse_codes codes in
  let '(current_code, decoded_pixels) :=
    foldl (decode_step reverse_codes) ([], []) binary_data in
  decoded_array ← np_array_uint8 decoded_pixels;
  reshape decoded_array (original_size.2, original_size.1).

(** [decode_image] from the table [codes] that its line 91 leaves, however
    the keys were spelled in the JSON file: the bits of the binary file,
    the reverse table, the loop, the array and its [reshape].  It ends, as
    [decode_image] does, with the array handed to [Image.fromarray]. *)
Definition decode_image_from (codes : dict Z bitstring) (bin : list byte)
    (original_size : nat * nat) : result ndarray :=
  let binary_data := read_binary_data bin in
  let reverse_codes := make_reverse_codes codes in
  let '(current_code, decoded_pixels) :=
    foldl (decode_step reverse_codes) ([], []) binary_data in
  decoded_array ← np_array_uint8 decoded_pixels;
  reshape decoded_array (original_size.2, original_size.1).

(** *** Compression

    [read_image] belongs to the raster library: its result, the flattened
    pixels and [img.size = (width, height)], is the input here. *)
Definition compress (self : ImageCompressor)
    (image : list Z * (nat * nat))
  : result (ImageCompressor * compressed_files * stats) :=
  let '(pixel_array, original_size) := image in
  let frequencies := calculate_frequencies pixel_array in
  self ← build_huffman_tree self frequencies;
  self ← generate_huffman_codes self;
  encoded_data ← encode_image self pixel_array;
  files ← save_compressed encoded_data (huffman_codes self);
  let original_bits := length pixel_array * 8 in
  let compressed_bits := length encoded_data in
  compression_ratio ←
    calculate_compression_ratio original_bits compressed_bits;
  Ok (self, files,
      {| original_size := original_size;
         compression_ratio := compression_ratio;
         original_bits := original_bits;
         compressed_bits := compressed_bits |}).

(** ** [class CompressorCLI] of [main.py]: the menu

    [list_input_files] numbers the valid images of the input directory and
    [run] looks up the file chosen at the prompt.  The files of the
    directory (the result of [glob]) and [is_valid_image], which opens the
    file, are inputs here; a path is a string.  What the two methods print
    (the table, the messages) is not part of the model.  [sys.exit(1)] is
    the outcome [SystemExit 1]. *)

Inductive outcome (A : Type) : Type :=
  | Returns (a : A)
  | SystemExit (code : Z).
Arguments Returns {A} a.
Arguments SystemExit {A} code.

Definition list_input_files
    (is_valid_image : string → bool * string * (nat * nat))
    (files : list string) : outcome (dict Z string) :=
  match files with
  | [] => SystemExit 1
  | _ :: _ =>
      let st :=
        foldl (λ (st : dict Z string * Z) file,
                 let '(file_map, choice_num) := st in
                 let '(is_valid, error_msg, dimensions) :=
                   is_valid_image file in
                 if is_valid
                 then (dict_set choice_num file file_map, (choice_num + 1)%Z)
                 else (file_map, choice_num))
              ([], 1%Z) files in
      Returns st.1
  end.

(** [str.lower] on ASCII characters. *)
Definition py_lower_char (c : ascii) : ascii :=
  let n := nat_of_ascii c in
  if decide (65 ≤ n ≤ 90) then ascii_of_nat (n + 32) else c.

Fixpoint py_lower (s : string) : string :=
  match s with
  | EmptyString => EmptyString
  | String c s => String (py_lower_char c) (py_lower s)
  end.

(** [[str(i) for i in range(1, len(file_map) + 1)] + ["q"]], the choices
    that [run] gives to [Prompt.ask]. *)
Definition menu_choices (file_map : dict Z string) : list string :=
  (py_str <$> (Z.of_nat <$> seq 1 (length file_map))) ++ ["q"%string].

(** What [run] does with the answer of the prompt: [None] ends the
    loop, [Some input_file] is the file to process. *)
Definition run_select (file_map : dict Z string) (choice : string)
  : result (option string) :=
  if decide (py_lower choice = "q"%string) then Ok None
  else
    k ← py_int choice;
    input_file ← dict_getitem file_map k;
    Ok (Some input_file).

(** ** Notions used in the statements

    The symbols at the leaves of a tree, from left to right; the leaves of a
    heap of trees; the entries that the traversal of
    [generate_huffman_codes] assigns, in the order in which it assigns them;
    [d.update(l)]; and the bit strings. *)

Fixpoint leaves (node : HuffmanNode) : list Z :=
  match node with
  | Leaf value _ => [value]
  | Internal _ node_left node_right => leaves node_left ++ leaves node_right
  end.

Definition forest_leaves (heap : list HuffmanNode) : list Z :=
  heap ≫= leaves.

Fixpoint tree_codes (node : HuffmanNode) (code : bitstring)
  : dict Z bitstring :=
  match node with
  | Leaf value _ => [(value, code)]
  | Internal _ node_left node_right =>
      tree_codes node_left (code ++ ["0"%char])
      ++ tree_codes node_right (code ++ ["1"%char])
  end.

Definition dict_update {K V} `{EqDecision K} (d l : dict K V) : dict K V :=
  foldl (λ acc kv, dict_set kv.1 kv.2 acc) d l.
Arguments dict_update : simpl never.

(** A list is a min-heap for [<] when no element is less than the element
    at its parent position [(i - 1) >> 1]. *)
Definition is_heap {A} `{PyLt A} (heap : list A) : Prop :=
  ∀ i child parent,
    0 < i → heap !! i = Some child → heap !! ((i - 1) / 2) = Some parent →
    py_lt child parent = false.

(** The heap order everywhere but around the position [pos], whose element
    is about to be overwritten: the edges that do not touch [pos] are in
    order, and so are the parent of [pos] and the children of [pos]. *)
Definition heap_except {A} `{PyLt A} (heap : list A) (pos : nat) : Prop :=
  (∀ i child parent,
     0 < i → i ≠ pos → (i - 1) / 2 ≠ pos →
     heap !! i = Some child → heap !! ((i - 1) / 2) = Some parent →
     py_lt child parent = false)
  ∧ (∀ c child grandparent,
       0 < pos → 0 < c → (c - 1) / 2 = pos →
       heap !! c = Some child → heap !! ((pos - 1) / 2) = Some grandparent →
       py_lt child grandparent = false).

(** The entries [(value, freq)] at the leaves of a tree, from left to
    right, and the trees in which the frequency of every internal node is
    the sum of the frequencies of its two children. *)
Fixpoint leaf_entries (node : HuffmanNode) : dict Z nat :=
  match node with
  | Leaf value f => [(value, f)]
  | Internal _ node_left node_right =>
      leaf_entries node_left ++ leaf_entries node_right
  end.

Fixpoint weights_consistent (node : HuffmanNode) : Prop :=
  match node with
  | Leaf _ _ => True
  | Internal f node_left node_right =>
      f = freq node_left + freq node_right
      ∧ weights_consistent node_left ∧ weights_consistent node_right
  end.

(** The concatenation of the codes of the pixels, in the order of the
    pixels. *)
Definition encoding (codes : dict Z bitstring) (pixel_array : list Z)
  : bitstring :=
  pixel_array ≫= (λ pixel, default [] (dict_get pixel codes)).

Definition is_bit (c : ascii) : Prop := c = "0"%char ∨ c = "1"%char.

(** The part of [compress] that follows the call of
    [generate_huffman_codes]. *)
Definition compress_finish (self : ImageCompressor) (pixel_array : list Z)
    (original_size : nat * nat)
  : result (ImageCompressor * compressed_files * stats) :=
  encoded_data ← encode_image self pixel_array;
  files ← save_compressed encoded_data (huffman_codes self);
  let original_bits := length pixel_array * 8 in
  let compressed_bits := length encoded_data in
  compression_ratio ←
    calculate_compression_ratio original_bits compressed_bits;
  Ok (self, files,
      {| original_size := original_size;
         compression_ratio := compression_ratio;
         original_bits := original_bits;
         compressed_bits := compressed_bits |}).

(** The state [(current_code, decoded_pixels)] of [decode_image] when the
    loop over [binary_data] ends. *)
Definition decode_loop_state (files : compressed_files)
  : result (bitstring * list Z) :=
  codes ← load_codes (codes_json files);
  Ok (foldl (decode_step (make_reverse_codes codes)) ([], [])
        (read_binary_data (bin_file files))).

(** The codes [1 -> "0"], [2 -> "10"], [3 -> "11"] with the bits ["01"]:
    one pixel is decoded, the bit ["1"] is left over. *)
Definition truncated_files : compressed_files :=
  {| bin_file := [x06; x40];
     codes_json := [("1"%string, ["0"%char]);
                    ("2"%string, ["1"%char; "0"%char]);
                    ("3"%string, ["1"%char; "1"%char])] |}.

(** A pixel array as [read_image] returns it, with the size of the image. *)
Definition valid_image (image : list Z * (nat * nat)) : Prop :=
  Forall (λ pixel, 0 ≤ pixel < 256)%Z image.1
  ∧ length image.1 = image.2.1 * image.2.2.

(** * Properties *)

(** ** The error monad and the array operations *)

Tactic Notation "rsimpl" := cbn [mbind mret result_bind result_ret].
Tactic Notation "rsimpl" "in" hyp(H) :=
  cbn [mbind mret result_bind result_ret] in H.

Lemma list_getitem_Ok {A} (l : list A) (i : nat) (x : A) :
  l !! i = Some x → list_getitem l i = Ok x.
Proof. intros E. unfold list_getitem. by rewrite E. Qed.

Lemma list_getitem_lt {A} (l : list A) (i : nat) :
  i < length l → ∃ x, l !! i = Some x ∧ list_getitem l i = Ok x.
Proof.
  intros Hi. destruct (lookup_lt_is_Some_2 l i Hi) as [x Hx].
  exists x. split; [done|]. by apply list_getitem_Ok.
Qed.

Lemma list_setitem_lt {A} (l : list A) (i : nat) (x : A) :
  i < length l → list_setitem l i x = Ok (<[i:=x]> l).
Proof. intros Hi. unfold list_setitem. by rewrite decide_True. Qed.

Lemma list_pop_snoc {A} (l : list A) (x : A) :
  list_pop (l ++ [x]) = Ok (x, l).
Proof.
  unfold list_pop. rewrite last_snoc, length_app. simpl.
  replace (length l + 1 - 1) with (length l) by lia.
  by rewrite take_app_length.
Qed.

Lemma list_pop_nil {A} : list_pop (@nil A) = Raise IndexError.
Proof. done. Qed.

(** ** [heapq]: the heap keeps its elements *)

Section heapq_facts.
Context {A : Type} `{PyLt A}.
Implicit Types heap : list A.

Lemma insert_swap_Permutation heap (i j : nat) (x y : A) :
  i ≠ j → i < length heap → heap !! j = Some y →
  <[j:=x]> (<[i:=y]> heap) ≡ₚ <[i:=x]> heap.
Proof.
  intros Hij Hi Hj.
  rewrite <-(list_insert_insert_eq heap i y x).
  apply Permutation_insert_swap.
  - by apply list_lookup_insert_eq.
  - by rewrite list_lookup_insert_ne.
Qed.

Lemma _siftdown_loop_Permutation n heap startpos newitem pos :
  pos < length heap →
  ∃ heap', heapq._siftdown_loop n heap startpos newitem pos = Ok heap'
           ∧ heap' ≡ₚ <[pos:=newitem]> heap.
Proof.
  revert heap pos. induction n as [|n IH]; intros heap pos Hpos;
    cbn [heapq._siftdown_loop].
  { rewrite list_setitem_lt by done. eauto. }
  case_decide as Hstart; [|rewrite list_setitem_lt by done; eauto].
  assert ((pos - 1) / 2 < pos) as Hparent.
  { apply Nat.Div0.div_lt_upper_bound. lia. }
  destruct (list_getitem_lt heap ((pos - 1) / 2)) as (parent & Hp & ->);
    [lia|]. rsimpl.
  destruct (py_lt newitem parent); [|rewrite list_setitem_lt by done; eauto].
  rewrite list_setitem_lt by done. rsimpl.
  destruct (IH (<[pos:=parent]> heap) ((pos - 1) / 2)) as (heap' & -> & Hperm).
  { rewrite length_insert. lia. }
  exists heap'. split; [done|]. rewrite Hperm.
  apply insert_swap_Permutation; [lia|done|done].
Qed.

Lemma _siftdown_Permutation heap startpos pos :
  pos < length heap →
  ∃ heap', heapq._siftdown heap startpos pos = Ok heap' ∧ heap' ≡ₚ heap.
Proof.
  intros Hpos. unfold heapq._siftdown.
  destruct (list_getitem_lt heap pos Hpos) as (newitem & Hn & ->). rsimpl.
  destruct (_siftdown_loop_Permutation pos heap startpos newitem pos Hpos)
    as (heap' & -> & Hperm).
  exists heap'. split; [done|]. by rewrite Hperm, list_insert_id.
Qed.

Lemma _siftup_loop_Permutation n heap endpos pos :
  endpos = length heap → pos < length heap →
  ∃ heap' pos',
    heapq._siftup_loop n heap endpos pos = Ok (heap', pos')
    ∧ pos' < length heap'
    ∧ ∀ x, <[pos':=x]> heap' ≡ₚ <[pos:=x]> heap.
Proof.
  revert heap pos. induction n as [|n IH]; intros heap pos Hend Hpos;
    cbn [heapq._siftup_loop].
  { eauto. }
  case_decide as Hchild; [|eauto].
  assert (∃ childpos,
    (if decide (2 * pos + 1 + 1 < endpos)
     then c ← list_getitem heap (2 * pos + 1);
          r ← list_getitem heap (2 * pos + 1 + 1);
          Ok (if negb (py_lt c r) then 2 * pos + 1 + 1 else 2 * pos + 1)
     else Ok (2 * pos + 1)) = Ok childpos
    ∧ pos < childpos < endpos) as (childpos & Hsel & Hlt).
  { case_decide as Hright; [|exists (2 * pos + 1); split; [done|lia]].
    destruct (list_getitem_lt heap (2 * pos + 1)) as (c & _ & ->); [lia|].
    destruct (list_getitem_lt heap (2 * pos + 1 + 1)) as (r & _ & ->);
      [lia|]. rsimpl.
    destruct (py_lt c r); rsimpl; cbn [negb]; eexists; (split; [done|lia]). }
  rewrite Hsel. rsimpl.
  destruct (list_getitem_lt heap childpos) as (child & Hc & ->); [lia|].
  rsimpl. rewrite list_setitem_lt by done. rsimpl.
  destruct (IH (<[pos:=child]> heap) childpos) as (heap' & pos' & -> & ? & Hperm).
  { by rewrite length_insert. }
  { rewrite length_insert. lia. }
  exists heap', pos'. split_and!; [done|done|].
  intros x. rewrite Hperm.
  apply insert_swap_Permutation; [lia|done|done].
Qed.

Lemma _siftup_Permutation heap pos :
  pos < length heap →
  ∃ heap', heapq._siftup heap pos = Ok heap' ∧ heap' ≡ₚ heap.
Proof.
  intros Hpos. unfold heapq._siftup.
  destruct (list_getitem_lt heap pos Hpos) as (newitem & Hn & ->). rsimpl.
  destruct (_siftup_loop_Permutation (length heap - pos) heap (length heap)
              pos eq_refl Hpos) as (heap1 & pos1 & -> & Hpos1 & Hperm).
  rsimpl. rewrite list_setitem_lt by done. rsimpl.
  destruct (_siftdown_Permutation (<[pos1:=newitem]> heap1) pos pos1)
    as (heap' & -> & Hperm').
  { by rewrite length_insert. }
  exists heap'. split; [done|].
  by rewrite Hperm', Hperm, list_insert_id.
Qed.

Lemma heappush_Permutation heap item :
  ∃ heap', heapq.heappush heap item = Ok heap' ∧ heap' ≡ₚ item :: heap.
Proof.
  unfold heapq.heappush.
  destruct (_siftdown_Permutation (heap ++ [item]) 0
              (length (heap ++ [item]) - 1)) as (heap' & -> & Hperm).
  { rewrite length_app. simpl. lia. }
  exists heap'. split; [done|].
  by rewrite Hperm, (comm (++)).
Qed.

Lemma heappop_nil : heapq.heappop (@nil A) = Raise IndexError.
Proof. done. Qed.

Lemma heappop_Permutation heap :
  heap ≠ [] →
  ∃ item heap', heapq.heappop heap = Ok (item, heap')
                ∧ item :: heap' ≡ₚ heap.
Proof.
  intros Hne.
  destruct (proj2 (last_is_Some heap) Hne) as [lastelt Hlast].
  apply last_Some in Hlast as [rest ->].
  unfold heapq.heappop. rewrite list_pop_snoc. rsimpl.
  destruct rest as [|returnitem rest]; [by eexists _, _|].
  rsimpl.
  destruct (_siftup_Permutation (lastelt :: rest) 0) as (heap' & Hup & Hperm).
  { simpl. lia. }
  rewrite (list_getitem_Ok _ 0 returnitem) by done. rsimpl.
  rewrite list_setitem_lt by (simpl; lia). rsimpl.
  change (<[0:=lastelt]> (returnitem :: rest)) with (lastelt :: rest).
  rewrite Hup. rsimpl.
  exists returnitem, heap'. split; [done|].
  rewrite Hperm. simpl. apply perm_skip.
  by rewrite (comm (++) rest).
Qed.
End heapq_facts.

(** ** Dictionaries *)

Section dict_facts.
Context {K V : Type} `{EqDecision K}.
Implicit Types (d : dict K V) (k : K) (v : V).

Lemma dict_getitem_Ok d k v : dict_get k d = Some v → dict_getitem d k = Ok v.
Proof. intros E. unfold dict_getitem. by rewrite E. Qed.

Lemma dict_get_set_eq d k v : dict_get k (dict_set k v d) = Some v.
Proof.
  induction d as [|[k' v'] d IH]; simpl.
  - by rewrite decide_True.
  - case_decide; simpl; [subst; by rewrite decide_True|].
    by rewrite decide_False.
Qed.

Lemma dict_get_set_ne d k k' v :
  k ≠ k' → dict_get k' (dict_set k v d) = dict_get k' d.
Proof.
  intros Hne. induction d as [|[k0 v0] d IH]; simpl.
  - by rewrite decide_False.
  - case_decide; simpl; [subst; by rewrite !decide_False|].
    by rewrite IH.
Qed.

Lemma dict_get_None d k : dict_get k d = None ↔ k ∉ d.*1.
Proof.
  induction d as [|[k' v'] d IH]; simpl.
  - split; [intros _; apply not_elem_of_nil|done].
  - rewrite not_elem_of_cons. case_decide; [|tauto].
    split; [done|]. intros [? _]. done.
Qed.

Lemma dict_get_Some_elem_of d k v : dict_get k d = Some v → (k, v) ∈ d.
Proof.
  induction d as [|[k' v'] d IH]; simpl; [done|].
  case_decide.
  - intros [= ->]. subst. apply list_elem_of_here.
  - intros. apply list_elem_of_further. auto.
Qed.

Lemma dict_get_elem_of d k v :
  NoDup d.*1 → (k, v) ∈ d → dict_get k d = Some v.
Proof.
  induction d as [|[k' v'] d IH]; simpl; intros Hnd Hin.
  { by apply elem_of_nil in Hin. }
  apply list.NoDup_cons in Hnd as [Hk' Hnd].
  apply elem_of_cons in Hin as [[= -> ->]|Hin]; [by rewrite decide_True|].
  rewrite decide_False; [by apply IH|].
  intros ->. apply Hk'. apply list_elem_of_fmap. by exists (k', v).
Qed.

Lemma dict_set_fresh d k v : k ∉ d.*1 → dict_set k v d = d ++ [(k, v)].
Proof.
  induction d as [|[k' v'] d IH]; simpl; [done|].
  rewrite not_elem_of_cons. intros [? ?].
  rewrite decide_False by done. by rewrite IH.
Qed.


Lemma dict_set_keys_elem_of d k v k' :
  k' ∈ (dict_set k v d).*1 ↔ k' = k ∨ k' ∈ d.*1.
Proof.
  induction d as [|[k0 v0] d IH]; simpl.
  - rewrite list_elem_of_singleton, elem_of_nil. tauto.
  - case_decide; simpl; rewrite !elem_of_cons; [subst; tauto|].
    rewrite IH. tauto.
Qed.

Lemma dict_set_NoDup d k v : NoDup d.*1 → NoDup (dict_set k v d).*1.
Proof.
  induction d as [|[k' v'] d IH]; simpl; intros Hnd.
  { apply NoDup_singleton. }
  apply list.NoDup_cons in Hnd as [Hk' Hnd].
  case_decide; simpl; apply list.NoDup_cons; split; auto.
  rewrite dict_set_keys_elem_of. intros [->|?]; done.
Qed.

Lemma dict_set_nonempty d k v : dict_set k v d ≠ [].
Proof. destruct d as [|[k' v'] d]; simpl; [done|]. by case_decide. Qed.
End dict_facts.

(** ** [calculate_frequencies] *)

Lemma calculate_frequencies_snoc (pixel_array : list Z) (pixel : Z) :
  calculate_frequencies (pixel_array ++ [pixel]) =
  let frequencies := calculate_frequencies pixel_array in
  dict_set pixel (default 0 (dict_get pixel frequencies) + 1) frequencies.
Proof. unfold calculate_frequencies. by rewrite foldl_snoc. Qed.

Lemma calculate_frequencies_NoDup (pixel_array : list Z) :
  NoDup (calculate_frequencies pixel_array).*1.
Proof.
  induction pixel_array as [|pixel pixel_array IH] using rev_ind.
  - apply NoDup_nil_2.
  - rewrite calculate_frequencies_snoc. by apply dict_set_NoDup.
Qed.

Lemma calculate_frequencies_keys (pixel_array : list Z) (pixel : Z) :
  pixel ∈ (calculate_frequencies pixel_array).*1 ↔ pixel ∈ pixel_array.
Proof.
  induction pixel_array as [|p pixel_array IH] using rev_ind.
  - done.
  - rewrite calculate_frequencies_snoc. cbv zeta.
    rewrite dict_set_keys_elem_of, elem_of_app, list_elem_of_singleton, IH.
    tauto.
Qed.

Lemma calculate_frequencies_nonempty (pixel_array : list Z) :
  pixel_array ≠ [] → calculate_frequencies pixel_array ≠ [].
Proof.
  destruct pixel_array as [|p pixel_array] using rev_ind; [done|].
  intros _. rewrite calculate_frequencies_snoc. apply dict_set_nonempty.
Qed.

Lemma calculate_frequencies_positive (pixel_array : list Z) :
  Forall (λ kv, 0 < kv.2) (calculate_frequencies pixel_array).
Proof.
  induction pixel_array as [|p pixel_array IH] using rev_ind.
  - constructor.
  - rewrite calculate_frequencies_snoc. cbv zeta.
    generalize (default 0 (dict_get p (calculate_frequencies pixel_array))).
    intros n. induction IH as [|[k v] d Hkv Hd IHd]; simpl.
    + constructor; [simpl; lia|constructor].
    + case_decide; constructor; simpl in *; auto; lia.
Qed.

(** ** [build_huffman_tree]: the tree has the symbols of the table as leaves *)

Lemma for_app {S X} (xs ys : list X) (body : S → X → result S) (s : S) :
  for_ (xs ++ ys) body s = s' ← for_ xs body s; for_ ys body s'.
Proof.
  revert s. induction xs as [|x xs IH]; intros s; simpl; [done|].
  destruct (body s x); rsimpl; [apply IH|done].
Qed.

Lemma forest_leaves_Permutation (heap heap' : list HuffmanNode) :
  heap ≡ₚ heap' → forest_leaves heap ≡ₚ forest_leaves heap'.
Proof.
  unfold forest_leaves.
  induction 1 as [|x l l' _ IH|x y l|l l' l'' _ IH1 _ IH2]; simpl.
  - done.
  - by rewrite IH.
  - rewrite !(assoc (++)). by rewrite (comm (++) (leaves y)).
  - by rewrite IH1.
Qed.

Lemma push_leaves_Ok (frequencies : dict Z nat) (heap : list HuffmanNode) :
  ∃ heap',
    for_ frequencies
      (λ heap '(value, freq), heapq.heappush heap (Leaf value freq)) heap
    = Ok heap'
    ∧ forest_leaves heap' ≡ₚ forest_leaves heap ++ frequencies.*1.
Proof.
  revert heap. induction frequencies as [|[value f] frequencies IH];
    intros heap; simpl.
  { exists heap. by rewrite (right_id [] (++)). }
  destruct (heappush_Permutation heap (Leaf value f)) as (heap1 & -> & Hperm).
  rsimpl. destruct (IH heap1) as (heap' & -> & Hperm').
  exists heap'. split; [done|].
  rewrite Hperm', (forest_leaves_Permutation _ _ Hperm).
  unfold forest_leaves. simpl. apply Permutation_middle.
Qed.

Lemma build_huffman_tree_loop_Ok (n : nat) (heap : list HuffmanNode) :
  heap ≠ [] → length heap ≤ S n →
  ∃ root, build_huffman_tree_loop n heap = Ok [root]
          ∧ leaves root ≡ₚ forest_leaves heap.
Proof.
  revert heap. induction n as [|n IH]; intros heap Hne Hlen;
    cbn [build_huffman_tree_loop].
  { destruct heap as [|root [|??]]; simpl in *; [done| |lia].
    exists root. unfold forest_leaves. simpl. by rewrite (right_id [] (++)). }
  case_decide as Hlong; last first.
  { destruct heap as [|root [|??]]; simpl in *; [done| |lia].
    exists root. unfold forest_leaves. simpl. by rewrite (right_id [] (++)). }
  destruct (heappop_Permutation heap Hne) as (node_l & heap1 & -> & Hperm1).
  rsimpl. cbn [fst snd].
  assert (length heap = S (length heap1)) as Hlen1.
  { by rewrite <-Hperm1. }
  destruct (heappop_Permutation heap1) as (node_r & heap2 & -> & Hperm2).
  { intros ->. simpl in *. lia. }
  rsimpl. cbn [fst snd].
  assert (length heap1 = S (length heap2)) as Hlen2.
  { by rewrite <-Hperm2. }
  destruct (heappush_Permutation heap2
              (Internal (freq node_l + freq node_r) node_l node_r))
    as (heap3 & -> & Hperm3).
  rsimpl.
  destruct (IH heap3) as (root & -> & Hroot).
  { intros ->. by apply Permutation_nil_cons in Hperm3. }
  { rewrite Hperm3. simpl. lia. }
  exists root. split; [done|].
  rewrite Hroot, (forest_leaves_Permutation _ _ Hperm3).
  rewrite <-(forest_leaves_Permutation _ _ Hperm1).
  unfold forest_leaves at 2. simpl.
  rewrite <-(forest_leaves_Permutation _ _ Hperm2).
  unfold forest_leaves. simpl. by rewrite (assoc (++)).
Qed.

Lemma build_huffman_tree_Ok (self : ImageCompressor)
    (frequencies : dict Z nat) :
  frequencies ≠ [] →
  ∃ root,
    build_huffman_tree self frequencies
    = Ok {| huffman_codes := huffman_codes self; huffman_tree := Some root |}
    ∧ leaves root ≡ₚ frequencies.*1.
Proof.
  intros Hne. unfold build_huffman_tree.
  destruct (push_leaves_Ok frequencies []) as (heap & -> & Hperm).
  rsimpl.
  assert (heap ≠ []) as Hheap.
  { intros ->. unfold forest_leaves in Hperm. simpl in Hperm.
    symmetry in Hperm. apply Permutation_nil_r in Hperm.
    by destruct frequencies. }
  destruct (build_huffman_tree_loop_Ok (length heap) heap Hheap)
    as (root & -> & Hroot); [lia|].
  rsimpl. exists root. split; [done|].
  by rewrite Hroot, Hperm.
Qed.

Lemma build_huffman_tree_empty (self : ImageCompressor) :
  build_huffman_tree self [] = Raise IndexError.
Proof. done. Qed.

(** The tree depends on the table only, not on the state of the instance. *)
Lemma build_huffman_tree_self (self self' : ImageCompressor)
    (frequencies : dict Z nat) (root : option HuffmanNode)
    (codes : dict Z bitstring) :
  build_huffman_tree self frequencies
  = Ok {| huffman_codes := codes; huffman_tree := root |} →
  build_huffman_tree self' frequencies
  = Ok {| huffman_codes := huffman_codes self'; huffman_tree := root |}.
Proof.
  unfold build_huffman_tree.
  destruct (for_ frequencies _ _) as [heap|]; rsimpl; [|done].
  destruct (build_huffman_tree_loop _ _) as [heap'|]; rsimpl; [|done].
  destruct (list_getitem heap' 0); rsimpl; [|done].
  by intros [= _ ->].
Qed.

(** ** [generate_huffman_codes]: the entries assigned by the traversal *)

Section dict_update_facts.
Context {K V : Type} `{EqDecision K}.
Implicit Types (d l : dict K V).

Lemma dict_update_cons d k v l :
  dict_update d ((k, v) :: l) = dict_update (dict_set k v d) l.
Proof. done. Qed.

Lemma dict_update_app d l1 l2 :
  dict_update d (l1 ++ l2) = dict_update (dict_update d l1) l2.
Proof. apply foldl_app. Qed.

Lemma dict_get_update_notin d l k :
  k ∉ l.*1 → dict_get k (dict_update d l) = dict_get k d.
Proof.
  revert d. induction l as [|[k' v'] l IH]; intros d; simpl; [done|].
  rewrite not_elem_of_cons. intros [Hne Hnotin].
  rewrite dict_update_cons, IH by done. by apply dict_get_set_ne.
Qed.

Lemma dict_get_update_elem_of d l k v :
  NoDup l.*1 → (k, v) ∈ l → dict_get k (dict_update d l) = Some v.
Proof.
  revert d. induction l as [|[k' v'] l IH]; intros d Hnd Hin; simpl in *.
  { by apply elem_of_nil in Hin. }
  apply list.NoDup_cons in Hnd as [Hk' Hnd]. rewrite dict_update_cons.
  apply elem_of_cons in Hin as [[= -> ->]|Hin]; [|by apply IH].
  rewrite dict_get_update_notin by done. apply dict_get_set_eq.
Qed.



Lemma dict_update_fresh d l :
  NoDup (d.*1 ++ l.*1) → dict_update d l = d ++ l.
Proof.
  revert d. induction l as [|[k v] l IH]; intros d Hnd; simpl in *.
  { by rewrite (right_id [] (++)). }
  rewrite dict_update_cons.
  apply list.NoDup_app in Hnd as (Hd & Hdl & Hl).
  apply list.NoDup_cons in Hl as [Hk Hl].
  rewrite dict_set_fresh.
  - rewrite IH; [by rewrite <-(assoc (++))|].
    rewrite fmap_app. simpl. rewrite <-(assoc (++)). simpl.
    apply list.NoDup_app. split_and!; [done| |by apply list.NoDup_cons].
    intros x Hx. apply Hdl. done.
  - intros Hin. apply (Hdl k Hin). apply list_elem_of_here.
Qed.
End dict_update_facts.

Lemma generate_huffman_codes_at_update (codes : dict Z bitstring)
    (node : HuffmanNode) (code : bitstring) :
  generate_huffman_codes_at codes node code
  = dict_update codes (tree_codes node code).
Proof.
  revert codes code.
  induction node as [value f|f node_l IHl node_r IHr]; intros codes code;
    simpl; [done|].
  by rewrite dict_update_app, IHl, IHr.
Qed.

Lemma tree_codes_keys (node : HuffmanNode) (code : bitstring) :
  (tree_codes node code).*1 = leaves node.
Proof.
  revert code. induction node as [value f|f node_l IHl node_r IHr];
    intros code; simpl; [done|].
  by rewrite fmap_app, IHl, IHr.
Qed.

Lemma tree_codes_prefix (node : HuffmanNode) (code : bitstring) kv :
  kv ∈ tree_codes node code → code `prefix_of` kv.2.
Proof.
  revert code. induction node as [value f|f node_l IHl node_r IHr];
    intros code; simpl.
  - rewrite list_elem_of_singleton. by intros ->.
  - rewrite elem_of_app. intros [Hin|Hin].
    + apply IHl in Hin. etrans; [|done]. by apply prefix_app_r.
    + apply IHr in Hin. etrans; [|done]. by apply prefix_app_r.
Qed.

Lemma prefix_branches_disjoint (code c1 c2 : bitstring) (b1 b2 : ascii) :
  b1 ≠ b2 →
  code ++ [b1] `prefix_of` c1 → code ++ [b2] `prefix_of` c2 →
  ¬ c1 `prefix_of` c2.
Proof.
  intros Hb [k1 ->] [k2 ->] [k Hk].
  rewrite <-!(assoc (++)) in Hk. apply app_inv_head in Hk.
  simpl in Hk. by injection Hk as ->.
Qed.

(** Two entries of the traversal are prefix-related only if they are the
    same entry: the code set of a tree is prefix-free. *)
Lemma tree_codes_prefix_free (node : HuffmanNode) (code : bitstring) kv1 kv2 :
  kv1 ∈ tree_codes node code → kv2 ∈ tree_codes node code →
  kv1.2 `prefix_of` kv2.2 → kv1 = kv2.
Proof.
  revert code. induction node as [value f|f node_l IHl node_r IHr];
    intros code; simpl.
  { rewrite !list_elem_of_singleton. by intros -> ->. }
  rewrite !elem_of_app. intros [H1|H1] [H2|H2] Hpre.
  - by apply (IHl (code ++ ["0"%char])).
  - apply tree_codes_prefix in H1, H2.
    by destruct (prefix_branches_disjoint code kv1.2 kv2.2 "0" "1").
  - apply tree_codes_prefix in H1, H2.
    by destruct (prefix_branches_disjoint code kv1.2 kv2.2 "1" "0").
  - by apply (IHr (code ++ ["1"%char])).
Qed.

Lemma tree_codes_bits (node : HuffmanNode) (code : bitstring) kv :
  Forall is_bit code → kv ∈ tree_codes node code → Forall is_bit kv.2.
Proof.
  revert code. induction node as [value f|f node_l IHl node_r IHr];
    intros code Hcode; simpl.
  - rewrite list_elem_of_singleton. by intros ->.
  - rewrite elem_of_app. intros [Hin|Hin].
    + apply (IHl (code ++ ["0"%char])); [|done].
      apply Forall_app. split; [done|]. repeat constructor.
    + apply (IHr (code ++ ["1"%char])); [|done].
      apply Forall_app. split; [done|]. constructor; [by right|constructor].
Qed.

Lemma tree_codes_length (node : HuffmanNode) (code : bitstring) kv :
  kv ∈ tree_codes node code → length code ≤ length kv.2.
Proof.
  intros [k ->]%tree_codes_prefix. rewrite length_app. lia.
Qed.

(** Below an internal node every code has at least one bit. *)
Lemma tree_codes_Internal_nonempty f node_l node_r kv :
  kv ∈ tree_codes (Internal f node_l node_r) [] → kv.2 ≠ [].
Proof.
  simpl. rewrite elem_of_app.
  intros [Hin|Hin]; apply tree_codes_length in Hin; simpl in Hin;
    intros E; rewrite E in Hin; simpl in Hin; lia.
Qed.

(** A tree with at least two leaves is an internal node. *)
Lemma leaves_two_Internal (node : HuffmanNode) :
  2 ≤ length (leaves node) → ∃ f node_l node_r, node = Internal f node_l node_r.
Proof. destruct node; simpl; [lia|eauto]. Qed.

(** ** [encode_image] *)

Lemma encode_image_loop_Ok (codes : dict Z bitstring) (pixel_array : list Z)
    (encoded_data : bitstring) :
  Forall (λ pixel, is_Some (dict_get pixel codes)) pixel_array →
  for_ pixel_array
    (λ encoded_data pixel,
       code ← dict_getitem codes pixel; Ok (encoded_data ++ code))
    encoded_data
  = Ok (encoded_data ++ encoding codes pixel_array).
Proof.
  intros Hall. revert encoded_data.
  induction Hall as [|pixel pixel_array [code Hcode] _ IH];
    intros encoded_data; simpl.
  { by rewrite (right_id [] (++)). }
  rewrite (dict_getitem_Ok _ _ _ Hcode). rsimpl. rewrite IH.
  unfold encoding. simpl. rewrite Hcode. simpl.
  by rewrite (assoc (++)).
Qed.

Lemma encode_image_Ok (self : ImageCompressor) (pixel_array : list Z) :
  Forall (λ pixel, is_Some (dict_get pixel (huffman_codes self))) pixel_array →
  encode_image self pixel_array
  = Ok (encoding (huffman_codes self) pixel_array).
Proof.
  intros Hall. exact (encode_image_loop_Ok (huffman_codes self) _ [] Hall).
Qed.

(** ** [save_compressed] and the unpacking done by [decode_image] *)

Lemma byte_of_chunk (byte : bitstring) :
  length byte = 8 → Forall is_bit byte →
  ∃ n b, int_base2 byte = Ok n ∧ byte_of_int n = Ok b ∧ format_08b b = byte.
Proof.
  intros Hlen Hbits.
  do 9 (destruct byte as [|? byte]; try done).
  repeat match goal with
         | H : Forall _ (_ :: _) |- _ =>
             apply Forall_cons_1 in H as [[-> | ->] H]
         end.
  all: eexists _, _; split_and!; reflexivity.
Qed.

Lemma padded_length (n : nat) :
  n + (8 - n `mod` 8) = (n / 8 + 1) * 8.
Proof.
  pose proof (Nat.div_mod_eq n 8).
  pose proof (Nat.mod_upper_bound n 8).
  lia.
Qed.

Lemma range_step_8 (m : nat) : range_step (m * 8) 8 = (λ j, j * 8) <$> seq 0 m.
Proof.
  unfold range_step. f_equal. f_equal.
  replace (m * 8 + 8 - 1) with (7 + m * 8) by lia.
  rewrite Nat.div_add by done. done.
Qed.

Section pack.
Variable encoded_data : bitstring.
Hypothesis encoded_bits : Forall is_bit encoded_data.

Let body : list byte → nat → result (list byte) :=
  λ byte_array i,
    let byte := slice encoded_data i (i + 8) in
    n ← int_base2 byte;
    b ← byte_of_int n;
    Ok (byte_array ++ [b]).

Lemma pack_chunks_Ok (m : nat) :
  m * 8 ≤ length encoded_data →
  ∃ byte_array,
    for_ ((λ j, j * 8) <$> seq 0 m) body [] = Ok byte_array
    ∧ length byte_array = m
    ∧ foldl (λ binary_data byte, binary_data ++ format_08b byte) []
        byte_array
      = take (m * 8) encoded_data.
Proof using encoded_bits.
  induction m as [|m IH]; intros Hlen.
  { exists []. by rewrite take_0. }
  destruct IH as (byte_array & Hfor & Hbytes & Hfold); [lia|].
  rewrite seq_S, fmap_app, for_app, Hfor. rsimpl. simpl.
  destruct (byte_of_chunk (slice encoded_data (m * 8) (m * 8 + 8)))
    as (n & b & Hn & Hb & Hfmt).
  { unfold slice. rewrite length_take, length_drop. lia. }
  { unfold slice. by apply Forall_take, Forall_drop. }
  unfold body at 1. cbv zeta. rewrite Hn. rsimpl. rewrite Hb. rsimpl.
  exists (byte_array ++ [b]). split_and!.
  - done.
  - rewrite length_app. simpl. lia.
  - rewrite foldl_snoc, Hfold, Hfmt. unfold slice.
    replace (m * 8 + 8 - m * 8) with 8 by lia.
    rewrite take_take_drop. f_equal. lia.
Qed.
End pack.

Lemma save_compressed_Ok (encoded_data : bitstring)
    (codes : dict Z bitstring) :
  Forall is_bit encoded_data →
  ∃ padding_byte byte_array,
    save_compressed encoded_data codes
    = Ok {| bin_file := padding_byte :: byte_array;
            codes_json :=
              foldl (λ acc '(k, v), dict_set (py_str k) v acc) [] codes |}
    ∧ N.to_nat (Byte.to_N padding_byte) = 8 - length encoded_data `mod` 8
    ∧ length byte_array = length encoded_data / 8 + 1
    ∧ foldl (λ binary_data byte, binary_data ++ format_08b byte) []
        byte_array
      = encoded_data ++ replicate (8 - length encoded_data `mod` 8) "0"%char.
Proof.
  intros Hbits. unfold save_compressed.
  set (padded_len := 8 - length encoded_data `mod` 8).
  set (padded := encoded_data ++ replicate padded_len "0"%char).
  assert (length padded = (length encoded_data / 8 + 1) * 8) as Hlen.
  { unfold padded. rewrite length_app, length_replicate. apply padded_length. }
  assert (Forall is_bit padded) as Hpadded.
  { apply Forall_app. split; [done|].
    apply Forall_replicate. by left. }
  rewrite Hlen, range_step_8.
  destruct (pack_chunks_Ok padded Hpadded (length encoded_data / 8 + 1))
    as (byte_array & Hfor & Hbytes & Hfold); [lia|].
  cbv zeta in Hfor |- *. rewrite Hfor. rsimpl.
  assert (∃ padding_byte, byte_of_int (N.of_nat padded_len) = Ok padding_byte
            ∧ N.to_nat (Byte.to_N padding_byte) = padded_len)
    as (padding_byte & -> & Hpad).
  { assert (padded_len ≤ 8) as Hle by (unfold padded_len; lia).
    clearbody padded_len. clear -Hle.
    do 9 (destruct padded_len as [|padded_len]; [by eexists|]). lia. }
  rsimpl. exists padding_byte, byte_array. split_and!; [done..|].
  by rewrite Hfold, <-Hlen, firstn_all.
Qed.

(** The bits read back from the binary file are the encoded bits: the
    padding, and only the padding, is dropped. *)
Lemma read_binary_data_packed (encoded_data : bitstring)
    (padding_byte : byte) (byte_array : list byte) :
  N.to_nat (Byte.to_N padding_byte) = 8 - length encoded_data `mod` 8 →
  foldl (λ binary_data byte, binary_data ++ format_08b byte) [] byte_array
  = encoded_data ++ replicate (8 - length encoded_data `mod` 8) "0"%char →
  read_binary_data (padding_byte :: byte_array) = encoded_data.
Proof.
  intros Hpad Hfold. unfold read_binary_data. simpl. rewrite Hpad, Hfold.
  pose proof (Nat.mod_upper_bound (length encoded_data) 8).
  rewrite decide_True by lia.
  rewrite length_app, length_replicate.
  replace (length encoded_data + (8 - length encoded_data `mod` 8)
           - (8 - length encoded_data `mod` 8))
    with (length encoded_data) by lia.
  by rewrite take_app_length.
Qed.

(** ** The code table file *)

Lemma py_int_str (k : Z) : py_int (py_str k) = Ok k.
Proof.
  unfold py_int, py_str. rewrite NilZero.isi.
  - by rewrite DecimalZ.of_to.
  - destruct k; simpl; [done| |done].
    intros [= E]. by apply DecimalPos.Unsigned.to_uint_nonnil in E.
  - destruct k; simpl; [done|done|].
    intros [= E]. by apply DecimalPos.Unsigned.to_uint_nonnil in E.
Qed.

#[global] Instance py_str_inj : Inj (=) (=) py_str.
Proof.
  intros k1 k2 E. pose proof (py_int_str k1) as E1.
  rewrite E, py_int_str in E1. by injection E1.
Qed.

Lemma codes_json_update (codes : dict Z bitstring)
    (acc : dict string bitstring) :
  foldl (λ acc '(k, v), dict_set (py_str k) v acc) acc codes
  = dict_update acc (prod_map py_str id <$> codes).
Proof.
  revert acc. induction codes as [|[k v] codes IH]; intros acc; [done|].
  simpl. by rewrite dict_update_cons, IH.
Qed.

Lemma codes_json_fresh (codes : dict Z bitstring) :
  NoDup codes.*1 →
  foldl (λ acc '(k, v), dict_set (py_str k) v acc) [] codes
  = prod_map py_str id <$> codes.
Proof.
  intros Hnd. rewrite codes_json_update.
  apply (dict_update_fresh []). simpl.
  replace ((prod_map py_str id <$> codes).*1) with (py_str <$> codes.*1).
  - apply NoDup_fmap_2; [apply _|done].
  - clear Hnd. induction codes as [|[k v] codes IH]; [done|].
    simpl. by f_equal.
Qed.

Lemma load_codes_loop (codes acc : dict Z bitstring) :
  for_ (prod_map py_str id <$> codes)
    (λ codes '(k, v), k' ← py_int k; Ok (dict_set k' v codes)) acc
  = Ok (dict_update acc codes).
Proof.
  revert acc. induction codes as [|[k v] codes IH]; intros acc; simpl; [done|].
  rewrite py_int_str. rsimpl. by rewrite IH.
Qed.

Lemma load_codes_dumped (codes : dict Z bitstring) :
  NoDup codes.*1 →
  load_codes (foldl (λ acc '(k, v), dict_set (py_str k) v acc) [] codes)
  = Ok codes.
Proof.
  intros Hnd. unfold load_codes.
  rewrite codes_json_fresh, load_codes_loop by done.
  f_equal. by apply (dict_update_fresh []).
Qed.

(** ** Decoding a prefix-free code *)

Lemma tree_codes_values_NoDup (node : HuffmanNode) (code : bitstring) :
  NoDup (tree_codes node code).*2.
Proof.
  revert code. induction node as [value f|f node_l IHl node_r IHr];
    intros code; simpl.
  { apply NoDup_singleton. }
  rewrite fmap_app. apply list.NoDup_app. split_and!; [done| |done].
  intros c [kv1 [-> H1]]%list_elem_of_fmap [kv2 [E H2]]%list_elem_of_fmap.
  apply tree_codes_prefix in H1, H2.
  destruct (prefix_branches_disjoint code kv1.2 kv2.2 "0" "1");
    [done|done|done|by rewrite E].
Qed.

Lemma make_reverse_codes_fresh (codes : dict Z bitstring) :
  NoDup codes.*2 →
  make_reverse_codes codes = (λ kv, (kv.2, kv.1)) <$> codes.
Proof.
  intros Hnd. unfold make_reverse_codes.
  trans (dict_update [] ((λ kv, (kv.2, kv.1)) <$> codes)).
  - generalize (@nil (bitstring * Z)).
    induction codes as [|[k v] codes IH]; intros acc; [done|].
    simpl. rewrite dict_update_cons. apply IH.
    by apply list.NoDup_cons in Hnd as [_ ?].
  - apply (dict_update_fresh []). simpl.
    replace (((λ kv, (kv.2, kv.1)) <$> codes).*1) with (codes.*2); [done|].
    clear Hnd. induction codes as [|[k v] codes IH]; [done|].
    simpl. by f_equal.
Qed.

Section decode.
Variable codes : dict Z bitstring.
Variable reverse_codes : dict bitstring Z.
Hypothesis codes_NoDup : NoDup codes.*1.
Hypothesis codes_prefix_free :
  ∀ kv1 kv2, kv1 ∈ codes → kv2 ∈ codes → kv1.2 `prefix_of` kv2.2 → kv1 = kv2.
Hypothesis codes_nonempty : ∀ kv, kv ∈ codes → kv.2 ≠ [].
Hypothesis reverse_codes_spec :
  ∀ c k, dict_get c reverse_codes = Some k ↔ (k, c) ∈ codes.

Lemma decode_one_code (k : Z) (c : bitstring) :
  (k, c) ∈ codes →
  ∀ suf pre out rest,
    c = pre ++ suf → suf ≠ [] →
    foldl (decode_step reverse_codes) (pre, out) (suf ++ rest)
    = foldl (decode_step reverse_codes) ([], out ++ [k]) rest.
Proof using codes_prefix_free reverse_codes_spec.
  intros Hin. induction suf as [|bit suf IH]; intros pre out rest Hc Hsuf;
    [done|].
  simpl. destruct suf as [|bit' suf].
  - rewrite (proj2 (reverse_codes_spec (pre ++ [bit]) k)); [done|].
    by rewrite <-Hc.
  - destruct (dict_get (pre ++ [bit]) reverse_codes) as [k'|] eqn:Hget.
    + apply reverse_codes_spec in Hget.
      assert ((k', pre ++ [bit]) = (k, c)) as [= _ E].
      { apply codes_prefix_free; [done|done|]. simpl. rewrite Hc.
        exists (bit' :: suf). by rewrite <-(assoc (++)). }
      rewrite Hc in E. apply app_inv_head in E. done.
    + apply (IH (pre ++ [bit])); [|done].
      by rewrite <-(assoc (++)).
Qed.

Lemma decode_encoding (pixel_array : list Z) (out : list Z) :
  Forall (λ pixel, pixel ∈ codes.*1) pixel_array →
  foldl (decode_step reverse_codes) ([], out) (encoding codes pixel_array)
  = ([], out ++ pixel_array).
Proof using All.
  intros Hall. revert out.
  induction Hall as [|pixel pixel_array Hpixel _ IH]; intros out.
  { by rewrite (right_id [] (++)). }
  destruct (dict_get pixel codes) as [c|] eqn:Hget;
    [|by apply dict_get_None in Hget].
  unfold encoding. simpl. rewrite Hget. simpl.
  apply dict_get_Some_elem_of in Hget.
  rewrite (decode_one_code pixel c Hget c [] out); [|done|].
  - fold (encoding codes pixel_array). rewrite IH.
    by rewrite <-(assoc (++)).
  - by apply (codes_nonempty (pixel, c)).
Qed.
End decode.

Lemma np_array_uint8_Ok (l acc : list Z) :
  Forall (λ x, 0 ≤ x < 256)%Z l →
  for_ l
    (λ acc x,
       if decide (0 ≤ x < 256)%Z then Ok (acc ++ [x]) else Raise OverflowError)
    acc
  = Ok (acc ++ l).
Proof.
  intros Hall. revert acc. induction Hall as [|x l Hx _ IH]; intros acc; simpl.
  { by rewrite (right_id [] (++)). }
  rewrite decide_True by done. rsimpl. rewrite IH.
  by rewrite <-(assoc (++)).
Qed.

(** ** [compress] on a non-empty pixel array *)

Lemma encoding_cons (codes : dict Z bitstring) (pixel : Z)
    (pixel_array : list Z) :
  encoding codes (pixel :: pixel_array)
  = default [] (dict_get pixel codes) ++ encoding codes pixel_array.
Proof. done. Qed.

Lemma encoding_ext (codes codes' : dict Z bitstring) (pixel_array : list Z) :
  Forall (λ pixel, dict_get pixel codes = dict_get pixel codes') pixel_array →
  encoding codes pixel_array = encoding codes' pixel_array.
Proof.
  induction 1 as [|pixel pixel_array E _ IH]; [done|].
  by rewrite !encoding_cons, E, IH.
Qed.

Lemma encoding_bits (codes : dict Z bitstring) (pixel_array : list Z) :
  (∀ kv, kv ∈ codes → Forall is_bit kv.2) →
  Forall is_bit (encoding codes pixel_array).
Proof.
  intros Hcodes.
  induction pixel_array as [|pixel pixel_array IH]; [constructor|].
  rewrite encoding_cons. apply Forall_app. split; [|done].
  destruct (dict_get pixel codes) as [c|] eqn:Hget; simpl; [|constructor].
  apply dict_get_Some_elem_of in Hget. by apply (Hcodes (pixel, c)).
Qed.

Lemma tree_codes_all_bits (root : HuffmanNode) kv :
  kv ∈ tree_codes root [] → Forall is_bit kv.2.
Proof. by apply tree_codes_bits. Qed.

Lemma calculate_compression_ratio_Ok (original_size compressed_size : nat) :
  original_size ≠ 0 →
  calculate_compression_ratio original_size compressed_size
  = Ok (SFmul 53 1024
          (SFdiv 53 1024 (float_of_int (Z.of_nat compressed_size))
                         (float_of_int (Z.of_nat original_size)))
          (float_of_int 100)).
Proof.
  intros Hne. unfold calculate_compression_ratio. by rewrite decide_False.
Qed.

Lemma compress_Ok (self : ImageCompressor) (pixel_array : list Z)
    (size : nat * nat) :
  pixel_array ≠ [] →
  ∃ root padding_byte byte_array ratio,
    let codes := dict_update (huffman_codes self) (tree_codes root []) in
    let encoded_data := encoding (tree_codes root []) pixel_array in
    leaves root ≡ₚ (calculate_frequencies pixel_array).*1
    ∧ build_huffman_tree self (calculate_frequencies pixel_array)
      = Ok {| huffman_codes := huffman_codes self;
              huffman_tree := Some root |}
    ∧ encoding codes pixel_array = encoded_data
    ∧ Forall (λ pixel, is_Some (dict_get pixel codes)) pixel_array
    ∧ compress self (pixel_array, size)
      = Ok ({| huffman_codes := codes; huffman_tree := Some root |},
            {| bin_file := padding_byte :: byte_array;
               codes_json :=
                 foldl (λ acc '(k, v), dict_set (py_str k) v acc) [] codes |},
            {| original_size := size;
               compression_ratio := ratio;
               original_bits := length pixel_array * 8;
               compressed_bits := length encoded_data |})
    ∧ calculate_compression_ratio (length pixel_array * 8)
        (length encoded_data) = Ok ratio
    ∧ N.to_nat (Byte.to_N padding_byte) = 8 - length encoded_data `mod` 8
    ∧ length byte_array = length encoded_data / 8 + 1
    ∧ foldl (λ binary_data byte, binary_data ++ format_08b byte) []
        byte_array
      = encoded_data
        ++ replicate (8 - length encoded_data `mod` 8) "0"%char.
Proof.
  intros Hne.
  destruct (build_huffman_tree_Ok self (calculate_frequencies pixel_array))
    as (root & Hbuild & Hleaves).
  { by apply calculate_frequencies_nonempty. }
  assert (NoDup (tree_codes root []).*1) as Hnd.
  { rewrite tree_codes_keys, Hleaves. apply calculate_frequencies_NoDup. }
  set (codes := dict_update (huffman_codes self) (tree_codes root [])).
  set (encoded_data := encoding (tree_codes root []) pixel_array).
  assert (Forall (λ pixel, dict_get pixel codes
                           = dict_get pixel (tree_codes root [])
                           ∧ is_Some (dict_get pixel codes)) pixel_array)
    as Hget.
  { apply list.Forall_forall. intros pixel Hin.
    apply calculate_frequencies_keys in Hin.
    rewrite <-Hleaves, <-(tree_codes_keys root []) in Hin.
    apply list_elem_of_fmap in Hin as ([k c] & -> & Hin). simpl.
    unfold codes. rewrite (dict_get_update_elem_of _ _ k c) by done.
    by rewrite (dict_get_elem_of _ k c). }
  assert (encoding codes pixel_array = encoded_data) as Henc.
  { apply encoding_ext. eapply list.Forall_impl; [exact Hget|]. by intros ? [? _]. }
  assert (Forall (λ pixel, is_Some (dict_get pixel codes)) pixel_array)
    as Hsome.
  { eapply list.Forall_impl; [exact Hget|]. by intros ? [_ ?]. }
  destruct (save_compressed_Ok encoded_data codes)
    as (padding_byte & byte_array & Hsave & Hpad & Hlen & Hfold).
  { apply encoding_bits, tree_codes_all_bits. }
  eexists root, padding_byte, byte_array, _. cbv zeta.
  fold codes encoded_data.
  split_and!; [done|done|done|done| |apply calculate_compression_ratio_Ok
              |done|done|done].
  - unfold compress. rewrite Hbuild. rsimpl.
    unfold generate_huffman_codes. cbn [huffman_tree huffman_codes]. rsimpl.
    rewrite generate_huffman_codes_at_update. fold codes.
    rewrite encode_image_Ok by done. cbn [huffman_codes]. rsimpl.
    rewrite Henc, Hsave. rsimpl.
    rewrite calculate_compression_ratio_Ok; [done|].
    destruct pixel_array; simpl; [done|lia].
  - destruct pixel_array; simpl; [done|lia].
Qed.

Lemma compress_unfold (self : ImageCompressor) (pixel_array : list Z)
    (size : nat * nat) :
  compress self (pixel_array, size)
  = self1 ← build_huffman_tree self (calculate_frequencies pixel_array);
    self2 ← generate_huffman_codes self1;
    compress_finish self2 pixel_array size.
Proof. done. Qed.

Lemma compress_finish_self (self : ImageCompressor) (pixel_array : list Z)
    (size : nat * nat) r :
  compress_finish self pixel_array size = Ok r → r.1.1 = self.
Proof.
  unfold compress_finish.
  destruct (encode_image self pixel_array) as [encoded_data|]; rsimpl; [|done].
  destruct (save_compressed _ _); rsimpl; [|done]. cbv zeta.
  destruct (calculate_compression_ratio _ _); rsimpl; [|done].
  by intros [= <-].
Qed.


Lemma compress_nil (self : ImageCompressor) (size : nat * nat) :
  compress self ([], size) = Raise IndexError.
Proof. done. Qed.

(** ** The loop counters are large enough

    Each loop gives the same result with any counter that is at least the
    bound it is started with: the counter never ends a loop whose
    condition still holds. *)

Section fuel.
Context {A : Type} `{PyLt A}.
Implicit Types heap : list A.

Lemma _siftdown_loop_fuel n m heap startpos newitem pos :
  pos ≤ n → pos ≤ m →
  heapq._siftdown_loop n heap startpos newitem pos
  = heapq._siftdown_loop m heap startpos newitem pos.
Proof.
  revert m heap pos. induction n as [|n IH]; intros m heap pos Hn Hm.
  { destruct m as [|m]; cbn [heapq._siftdown_loop]; [done|].
    rewrite decide_False by lia. done. }
  destruct m as [|m]; cbn [heapq._siftdown_loop].
  { rewrite decide_False by lia. done. }
  case_decide as Hstart; [|done].
  destruct (list_getitem heap ((pos - 1) / 2)) as [parent|]; rsimpl; [|done].
  destruct (py_lt newitem parent); [|done].
  destruct (list_setitem heap pos parent) as [heap'|]; rsimpl; [|done].
  assert ((pos - 1) / 2 < pos) by (apply Nat.Div0.div_lt_upper_bound; lia).
  apply IH; lia.
Qed.

Lemma _siftup_loop_fuel n m heap endpos pos :
  endpos - pos ≤ n → endpos - pos ≤ m →
  heapq._siftup_loop n heap endpos pos
  = heapq._siftup_loop m heap endpos pos.
Proof.
  revert m heap pos. induction n as [|n IH]; intros m heap pos Hn Hm.
  { destruct m as [|m]; cbn [heapq._siftup_loop]; [done|].
    rewrite decide_False by lia. done. }
  destruct m as [|m]; cbn [heapq._siftup_loop].
  { rewrite decide_False by lia. done. }
  case_decide as Hchild; [|done].
  assert (∀ childpos : result nat,
    (∀ c, childpos = Ok c → pos < c) →
    (childpos ≫= λ childpos,
       child ← list_getitem heap childpos;
       heap ← list_setitem heap pos child;
       heapq._siftup_loop n heap endpos childpos)
    = (childpos ≫= λ childpos,
         child ← list_getitem heap childpos;
         heap ← list_setitem heap pos child;
         heapq._siftup_loop m heap endpos childpos)) as Hstep.
  { intros [c|] Hc; rsimpl; [|done]. specialize (Hc c eq_refl).
    destruct (list_getitem heap c) as [child|]; rsimpl; [|done].
    destruct (list_setitem heap pos child) as [heap'|]; rsimpl; [|done].
    apply IH; lia. }
  apply Hstep. intros c.
  case_decide; [|intros [= <-]; lia].
  destruct (list_getitem heap (2 * pos + 1)); rsimpl; [|done].
  destruct (list_getitem heap (2 * pos + 1 + 1)); rsimpl; [|done].
  destruct (negb _); intros [= <-]; lia.
Qed.
End fuel.

Lemma build_huffman_tree_loop_fuel (n m : nat) (heap : list HuffmanNode) :
  length heap ≤ n → length heap ≤ m →
  build_huffman_tree_loop n heap = build_huffman_tree_loop m heap.
Proof.
  revert m heap. induction n as [|n IH]; intros m heap Hn Hm.
  { destruct m as [|m]; cbn [build_huffman_tree_loop]; [done|].
    rewrite decide_False by lia. done. }
  destruct m as [|m]; cbn [build_huffman_tree_loop].
  { rewrite decide_False by lia. done. }
  case_decide as Hlong; [|done].
  destruct (heappop_Permutation heap) as (node_l & heap1 & -> & Hperm1).
  { intros ->. simpl in *. lia. }
  rsimpl. cbn [fst snd].
  assert (length heap = S (length heap1)) as Hlen1 by by rewrite <-Hperm1.
  destruct (heappop_Permutation heap1) as (node_r & heap2 & -> & Hperm2).
  { intros ->. simpl in *. lia. }
  rsimpl. cbn [fst snd].
  assert (length heap1 = S (length heap2)) as Hlen2 by by rewrite <-Hperm2.
  destruct (heappush_Permutation heap2
              (Internal (freq node_l + freq node_r) node_l node_r))
    as (heap3 & -> & Hperm3).
  rsimpl. apply IH; rewrite Hperm3; simpl; lia.
Qed.

(** * The claims *)

(** C6.  Compression of an empty sample sequence fails, whatever the state
    of the instance and the size given: no node is pushed on the heap, and
    [build_huffman_tree] raises at [heap[0]] (Python's [IndexError]; this
    is the failure the specification calls [EmptyInputError]). *)
Theorem compress_empty_input_fails :
  ∀ (self : ImageCompressor) (size : nat * nat),
    build_huffman_tree self (calculate_frequencies []) = Raise IndexError
    ∧ compress self ([], size) = Raise IndexError.
Proof. done. Qed.



(** C9.  For every non-empty pixel array, on any instance, [compress]
    returns statistics in which [original_bits] is eight times the number of
    samples, [compressed_bits] is the length of the encoded bit sequence
    without the padding (the bits of the data bytes of the binary file minus
    the padding length recorded in its first byte), and [compression_ratio]
    is the binary64 value of [compressed_bits / original_bits * 100]. *)
Theorem compress_stats :
  ∀ (self : ImageCompressor) (pixel_array : list Z) (size : nat * nat),
    pixel_array ≠ [] →
    ∃ self' files st encoded_data,
      compress self (pixel_array, size) = Ok (self', files, st)
      ∧ encode_image self' pixel_array = Ok encoded_data
      ∧ original_bits st = length pixel_array * 8
      ∧ compressed_bits st = length encoded_data
      ∧ compressed_bits st + read_padding_length (bin_file files)
        = 8 * length (tail (bin_file files))
      ∧ compression_ratio st
        = SFmul 53 1024
            (SFdiv 53 1024 (float_of_int (Z.of_nat (compressed_bits st)))
                           (float_of_int (Z.of_nat (original_bits st))))
            (float_of_int 100).
Proof.
  intros self pixel_array size Hne.
  destruct (compress_Ok self pixel_array size Hne)
    as (root & padding_byte & byte_array & ratio & Hleaves & Hbuild & Henc
        & Hsome & Hcompress & Hratio & Hpad & Hlen & Hfold).
  cbv zeta in *.
  eexists _, _, _, _. split; [exact Hcompress|].
  cbn [original_bits compressed_bits compression_ratio bin_file].
  split_and!.
  - rewrite encode_image_Ok by done. cbn [huffman_codes]. by rewrite Henc.
  - done.
  - done.
  - cbn [read_padding_length tail]. rewrite Hpad, Hlen.
    pose proof (padded_length
                  (length (encoding (tree_codes root []) pixel_array))).
    lia.
  - rewrite calculate_compression_ratio_Ok in Hratio; [by injection Hratio|].
    destruct pixel_array; simpl; [done|lia].
Qed.

Lemma compress_stats_witness :
  ∃ self' files st encoded_data,
    compress __init__ ([1; 1; 2; 3]%Z, (2, 2)) = Ok (self', files, st)
    ∧ encode_image self' [1; 1; 2; 3]%Z = Ok encoded_data
    ∧ original_bits st = 4 * 8
    ∧ compressed_bits st = length encoded_data
    ∧ compressed_bits st + read_padding_length (bin_file files)
      = 8 * length (tail (bin_file files))
    ∧ compression_ratio st
      = SFmul 53 1024
          (SFdiv 53 1024 (float_of_int (Z.of_nat (compressed_bits st)))
                         (float_of_int (Z.of_nat (original_bits st))))
          (float_of_int 100).
Proof. apply (compress_stats __init__ [1; 1; 2; 3]%Z (2, 2)). done. Defined.



(** C3.  For every non-empty frequency table, the code table generated on
    a new instance has exactly the symbols of the table as keys, gives each
    of them exactly one code, and no code of a symbol is a prefix of the
    code of another symbol. *)
Theorem codebook_prefix_free :
  ∀ frequencies : dict Z nat,
    NoDup frequencies.*1 → frequencies ≠ [] →
    ∃ self1 self2,
      build_huffman_tree __init__ frequencies = Ok self1
      ∧ generate_huffman_codes self1 = Ok self2
      ∧ (huffman_codes self2).*1 ≡ₚ frequencies.*1
      ∧ (∀ symbol, symbol ∈ frequencies.*1 →
           ∃ code, dict_get symbol (huffman_codes self2) = Some code
                   ∧ ∀ code', (symbol, code') ∈ huffman_codes self2 →
                              code' = code)
      ∧ (∀ symbol1 code1 symbol2 code2,
           (symbol1, code1) ∈ huffman_codes self2 →
           (symbol2, code2) ∈ huffman_codes self2 →
           symbol1 ≠ symbol2 → ¬ code1 `prefix_of` code2).
Proof.
  intros frequencies Hnd Hne.
  destruct (build_huffman_tree_Ok __init__ frequencies Hne)
    as (root & Hbuild & Hleaves).
  assert (NoDup (tree_codes root []).*1) as Hkeys.
  { by rewrite tree_codes_keys, Hleaves. }
  eexists _, _. split; [exact Hbuild|].
  unfold generate_huffman_codes. cbn [huffman_tree huffman_codes].
  split; [done|]. cbn [huffman_codes].
  rewrite generate_huffman_codes_at_update.
  replace (dict_update [] (tree_codes root [])) with (tree_codes root [])
    by (symmetry; by apply (dict_update_fresh [])).
  split_and!.
  - by rewrite tree_codes_keys.
  - intros symbol Hin.
    rewrite <-Hleaves, <-(tree_codes_keys root []) in Hin.
    apply list_elem_of_fmap in Hin as ([k code] & -> & Hin). simpl.
    exists code. split; [by apply dict_get_elem_of|].
    intros code' Hin'.
    apply dict_get_elem_of in Hin, Hin'; [|done..]. congruence.
  - intros symbol1 code1 symbol2 code2 H1 H2 Hsym Hpre.
    apply Hsym.
    by injection (tree_codes_prefix_free root [] _ _ H1 H2 Hpre).
Qed.

Lemma codebook_prefix_free_witness :
  ∃ self1 self2,
    build_huffman_tree __init__ [(1%Z, 2); (2%Z, 1); (3%Z, 1)] = Ok self1
    ∧ generate_huffman_codes self1 = Ok self2
    ∧ (huffman_codes self2).*1 ≡ₚ [1; 2; 3]%Z
    ∧ (∀ symbol, symbol ∈ [1; 2; 3]%Z →
         ∃ code, dict_get symbol (huffman_codes self2) = Some code
                 ∧ ∀ code', (symbol, code') ∈ huffman_codes self2 →
                            code' = code)
    ∧ (∀ symbol1 code1 symbol2 code2,
         (symbol1, code1) ∈ huffman_codes self2 →
         (symbol2, code2) ∈ huffman_codes self2 →
         symbol1 ≠ symbol2 → ¬ code1 `prefix_of` code2).
Proof.
  apply (codebook_prefix_free [(1%Z, 2); (2%Z, 1); (3%Z, 1)]); [|done].
  apply (bool_decide_unpack _). vm_compute. exact I.
Defined.

(** ** The padding of a bit sequence that fills its bytes *)

Lemma unpack_length (byte_array : list byte) (binary_data : bitstring) :
  length (foldl (λ binary_data byte, binary_data ++ format_08b byte)
            binary_data byte_array)
  = length binary_data + 8 * length byte_array.
Proof.
  revert binary_data. induction byte_array as [|b byte_array IH];
    intros binary_data; simpl; [lia|].
  rewrite IH, length_app. simpl. lia.
Qed.

Lemma format_08b_zero (b : byte) :
  format_08b b = replicate 8 "0"%char → b = x00.
Proof. destruct b; first [done | by intros [=]]. Qed.

Lemma padding_byte_8 (b : byte) : N.to_nat (Byte.to_N b) = 8 → b = x08.
Proof. destruct b; first [done | by intros [=]]. Qed.

(** C4.  When the length of the bit sequence is a multiple of 8 (16 bits,
    for example), [save_compressed] records the padding length 8 and writes
    one more byte than the bits fill, a zero byte; the unpacking of
    [decode_image] with that padding length gives back exactly the bit
    sequence. *)
Theorem padding_full_byte_when_aligned :
  ∀ (encoded_data : bitstring) (codes : dict Z bitstring),
    Forall is_bit encoded_data → length encoded_data `mod` 8 = 0 →
    ∃ byte_array json,
      save_compressed encoded_data codes
      = Ok {| bin_file := x08 :: byte_array ++ [x00]; codes_json := json |}
      ∧ length byte_array = length encoded_data / 8
      ∧ read_padding_length (x08 :: byte_array ++ [x00])
        = 8 - length encoded_data `mod` 8
      ∧ read_padding_length (x08 :: byte_array ++ [x00]) = 8
      ∧ read_binary_data (x08 :: byte_array ++ [x00]) = encoded_data.
Proof.
  intros encoded_data codes Hbits Hmod.
  destruct (save_compressed_Ok encoded_data codes Hbits)
    as (padding_byte & bytes & Hsave & Hpad & Hlen & Hfold).
  rewrite Hmod in Hpad, Hfold. apply padding_byte_8 in Hpad as ->.
  destruct bytes as [|b bytes _] using rev_ind; [cbn [length] in Hlen; lia|].
  rewrite length_app in Hlen. cbn [length] in Hlen.
  assert (length bytes = length encoded_data / 8) as Hbytes by lia.
  assert (b = x00) as ->.
  { rewrite foldl_snoc in Hfold. apply app_inj_1 in Hfold as [_ ?];
      [by apply format_08b_zero|].
    rewrite unpack_length, Hbytes. cbn [length].
    pose proof (Nat.div_mod_eq (length encoded_data) 8). lia. }
  eexists bytes, _. split; [exact Hsave|]. split_and!; [done| |done|].
  - by rewrite Hmod.
  - apply read_binary_data_packed; rewrite Hmod; done.
Qed.

Lemma padding_full_byte_when_aligned_witness :
  ∃ byte_array json,
    save_compressed (replicate 16 "1"%char) []
    = Ok {| bin_file := x08 :: byte_array ++ [x00]; codes_json := json |}
    ∧ length byte_array = length (replicate 16 "1"%char) / 8
    ∧ read_padding_length (x08 :: byte_array ++ [x00])
      = 8 - length (replicate 16 "1"%char) `mod` 8
    ∧ read_padding_length (x08 :: byte_array ++ [x00]) = 8
    ∧ read_binary_data (x08 :: byte_array ++ [x00]) = replicate 16 "1"%char.
Proof.
  apply (padding_full_byte_when_aligned (replicate 16 "1"%char) []);
    [|done].
  apply Forall_replicate. by right.
Defined.

(** ** [decode_image] *)

Lemma decode_image_unfold (files : compressed_files) (size : nat * nat) :
  decode_image files size
  = st ← decode_loop_state files;
    decoded_array ← np_array_uint8 st.2;
    reshape decoded_array (size.2, size.1).
Proof.
  unfold decode_image, decode_loop_state.
  destruct (load_codes (codes_json files)) as [codes|]; rsimpl; [|done].
  by destruct (foldl _ _ _).
Qed.

Lemma decode_image_reshape (files : compressed_files) (size : nat * nat)
    (current_code : bitstring) (decoded_pixels : list Z) :
  decode_loop_state files = Ok (current_code, decoded_pixels) →
  Forall (λ x, 0 ≤ x < 256)%Z decoded_pixels →
  decode_image files size = reshape decoded_pixels (size.2, size.1).
Proof.
  intros Hloop Hrange. rewrite decode_image_unfold, Hloop. rsimpl.
  unfold np_array_uint8. by rewrite np_array_uint8_Ok.
Qed.

Lemma decode_image_load (files : compressed_files) (size : nat * nat) :
  decode_image files size
  = codes ← load_codes (codes_json files);
    decode_image_from codes (bin_file files) size.
Proof. done. Qed.

(** C5, as the code has it.  [decode_image] has no signal for a truncated
    stream: what is left in [current_code] when the bits are exhausted is
    dropped.  Its only check is the [reshape].  For every code table it has
    loaded and every binary file, with decoded pixels in [0,255]: when
    their number is not [width * height] it raises [ValueError], and when
    it is [width * height] and the raster is not empty the array it hands
    on holds exactly the decoded pixels, in shape [(height, width)],
    whatever [current_code] holds at the end. *)
Theorem decode_image_signals_only_size_mismatch :
  ∀ (codes : dict Z bitstring) (bin : list byte) (size : nat * nat)
    (current_code : bitstring) (decoded_pixels : list Z),
    foldl (decode_step (make_reverse_codes codes)) ([], [])
      (read_binary_data bin)
    = (current_code, decoded_pixels) →
    Forall (λ x, 0 ≤ x < 256)%Z decoded_pixels →
    (length decoded_pixels = size.1 * size.2 → 0 < size.1 * size.2 →
     decode_image_from codes bin size
     = Ok {| shape := (size.2, size.1); data := decoded_pixels |})
    ∧ (length decoded_pixels ≠ size.1 * size.2 →
       decode_image_from codes bin size = Raise ValueError).
Proof.
  intros codes bin size current_code decoded_pixels Hloop Hrange.
  unfold decode_image_from. cbv zeta. rewrite Hloop.
  unfold np_array_uint8. rewrite np_array_uint8_Ok by done. rsimpl.
  unfold reshape. cbn [fst snd app]. split.
  - intros Hlen _. rewrite decide_True; [done|]. lia.
  - intros Hlen. rewrite decide_False; [done|]. lia.
Qed.

Lemma decode_image_signals_only_size_mismatch_witness :
  (length [1%Z] = 1 * 1 → 0 < 1 * 1 →
   decode_image_from
     [(1%Z, ["0"%char]); (2%Z, ["1"%char; "0"%char]);
      (3%Z, ["1"%char; "1"%char])]
     [x06; x40] (1, 1)
   = Ok {| shape := (1, 1); data := [1%Z] |})
  ∧ (length [1%Z] ≠ 1 * 1 →
     decode_image_from
       [(1%Z, ["0"%char]); (2%Z, ["1"%char; "0"%char]);
        (3%Z, ["1"%char; "1"%char])]
       [x06; x40] (1, 1)
     = Raise ValueError).
Proof.
  apply (decode_image_signals_only_size_mismatch
           [(1%Z, ["0"%char]); (2%Z, ["1"%char; "0"%char]);
            (3%Z, ["1"%char; "1"%char])]
           [x06; x40] (1, 1) ["1"%char] [1%Z]).
  - vm_compute. reflexivity.
  - apply Forall_cons_2; [lia|apply Forall_nil_2].
Defined.

(** C5, as stated, fails: the bit sequence is exhausted with the non-empty
    accumulator ["1"], which matches no code, and [decode_image] returns a
    raster without raising. *)
Lemma truncated_stream_not_signalled :
  decode_loop_state truncated_files = Ok (["1"%char], [1%Z])
  ∧ (codes ← load_codes (codes_json truncated_files);
     Ok (dict_get ["1"%char] (make_reverse_codes codes))) = Ok None
  ∧ decode_image truncated_files (1, 1)
    = Ok {| shape := (1, 1); data := [1%Z] |}.
Proof. split_and!; vm_compute; reflexivity. Qed.

(** ** The flat image *)

Lemma leaves_nonempty (node : HuffmanNode) : leaves node ≠ [].
Proof.
  induction node as [value f|f node_l IHl node_r IHr]; simpl; [done|].
  by destruct (leaves node_l).
Qed.

Lemma leaves_singleton (node : HuffmanNode) (value : Z) :
  leaves node = [value] → ∃ f, node = Leaf value f.
Proof.
  destruct node as [value' f|f node_l node_r]; simpl.
  - intros [= ->]. by exists f.
  - pose proof (leaves_nonempty node_l). pose proof (leaves_nonempty node_r).
    destruct (leaves node_l) as [|? [|??]], (leaves node_r); done.
Qed.

Lemma calculate_frequencies_flat (value : Z) (n : nat) :
  0 < n → (calculate_frequencies (replicate n value)).*1 = [value].
Proof.
  intros Hn.
  pose proof (calculate_frequencies_NoDup (replicate n value)) as Hnd.
  pose proof (calculate_frequencies_nonempty (replicate n value)) as Hne.
  pose proof (calculate_frequencies_keys (replicate n value)) as Hkeys.
  destruct (calculate_frequencies (replicate n value)) as [|[k f] d].
  { destruct Hne; [by destruct n; [lia|]|done]. }
  simpl in *.
  assert (∀ k', k' ∈ k :: d.*1 → k' = value) as Hall.
  { intros k' Hk'. apply Hkeys in Hk'. by apply elem_of_replicate_inv in Hk'. }
  rewrite (Hall k) by apply list_elem_of_here.
  destruct d as [|[k' f'] d]; [done|]. simpl in *.
  apply list.NoDup_cons in Hnd as [Hnotin _]. destruct Hnotin.
  rewrite (Hall k), (Hall k'); [apply list_elem_of_here|..].
  - apply list_elem_of_further, list_elem_of_here.
  - apply list_elem_of_here.
Qed.

Lemma encoding_empty_code (value : Z) (pixel_array : list Z) :
  encoding [(value, [])] pixel_array = [].
Proof.
  induction pixel_array as [|pixel pixel_array IH]; [done|].
  rewrite encoding_cons, IH. simpl. by case_decide.
Qed.

(** C2, as the code has it.  For an image with one distinct value the tree
    is a single leaf, [generate_huffman_codes] stops at the root with
    [code = ""], and the symbol gets the empty code: zero bits are encoded,
    the binary file holds the padding length 8 and one zero byte, and
    [decode_image] decodes no pixel and raises at the [reshape]. *)
Theorem flat_image_empty_code :
  ∀ (value : Z) (n : nat) (size : nat * nat),
    0 < n →
    ∃ self' files st,
      compress __init__ (replicate n value, size) = Ok (self', files, st)
      ∧ huffman_codes self' = [(value, [])]
      ∧ compressed_bits st = 0
      ∧ bin_file files = [x08; x00]
      ∧ (size.1 * size.2 = n → decode_image files size = Raise ValueError).
Proof.
  intros value n size Hn.
  destruct (compress_Ok __init__ (replicate n value) size)
    as (root & padding_byte & byte_array & ratio & Hleaves & Hbuild & Henc
        & Hsome & Hcompress & Hratio & Hpad & Hlen & Hfold).
  { by destruct n; [lia|]. }
  cbv zeta in *.
  rewrite calculate_frequencies_flat in Hleaves by done.
  apply Permutation_singleton_r, leaves_singleton in Hleaves as [f ->].
  cbn [tree_codes huffman_codes __init__] in *.
  change (dict_update [] [(value, [])]) with [(value, @nil ascii)] in *.
  rewrite encoding_empty_code in *. cbn [length] in *.
  change (8 - 0 `mod` 8) with 8 in *. change (0 `div` 8 + 1) with 1 in *.
  apply padding_byte_8 in Hpad as ->.
  destruct byte_array as [|b [|??]]; [done| |done].
  apply format_08b_zero in Hfold as ->.
  eexists _, _, _. split; [exact Hcompress|].
  cbn [huffman_codes compressed_bits bin_file]. split_and!; [done..|].
  intros Hsize.
  rewrite (decode_image_reshape _ _ [] []).
  - unfold reshape. cbn [fst snd length]. rewrite decide_False; [done|]. lia.
  - unfold decode_loop_state, load_codes.
    cbn [codes_json foldl for_ dict_set]. rewrite py_int_str. done.
  - constructor.
Qed.

Lemma flat_image_empty_code_witness :
  ∃ self' files st,
    compress __init__ (replicate 4 7%Z, (2, 2)) = Ok (self', files, st)
    ∧ huffman_codes self' = [(7%Z, [])]
    ∧ compressed_bits st = 0
    ∧ bin_file files = [x08; x00]
    ∧ (2 * 2 = 4 → decode_image files (2, 2) = Raise ValueError).
Proof. apply (flat_image_empty_code 7%Z 4 (2, 2)). lia. Defined.

(** C1, as the code has it, on the flat image [[7, 7, 7, 7]] of size 2 x 2:
    [compress] succeeds and [decode_image] on its two files raises instead
    of returning the four pixels. *)
Theorem roundtrip_fails_on_flat_image :
  ∃ self' files st,
    compress __init__ ([7; 7; 7; 7]%Z, (2, 2)) = Ok (self', files, st)
    ∧ files = {| bin_file := [x08; x00];
                 codes_json := [("7"%string, [])] |}
    ∧ decode_image files (2, 2) = Raise ValueError.
Proof. eexists _, _, _. split_and!; vm_compute; reflexivity. Qed.

(** C8, as the code has it.  A second [compress] on the same instance
    keeps the entries that the first one left in [self.huffman_codes]: the
    code table written for [[1, 1, 2, 3]] after [[4, 5]] differs from the
    one a new instance writes, and [decode_image] does not give the pixels
    back from it. *)
Theorem reused_instance_keeps_old_codes :
  ∃ self1 files1 st1 self2 files2 st2 self3 files3 st3,
    compress __init__ ([4; 5]%Z, (2, 1)) = Ok (self1, files1, st1)
    ∧ compress self1 ([1; 1; 2; 3]%Z, (2, 2)) = Ok (self2, files2, st2)
    ∧ compress __init__ ([1; 1; 2; 3]%Z, (2, 2)) = Ok (self3, files3, st3)
    ∧ codes_json files2
      = [("4"%string, ["0"%char]); ("5"%string, ["1"%char]);
         ("1"%string, ["0"%char]); ("2"%string, ["1"%char; "0"%char]);
         ("3"%string, ["1"%char; "1"%char])]
    ∧ codes_json files3
      = [("1"%string, ["0"%char]); ("2"%string, ["1"%char; "0"%char]);
         ("3"%string, ["1"%char; "1"%char])]
    ∧ codes_json files2 ≠ codes_json files3
    ∧ decode_image files2 (2, 2) = Raise ValueError
    ∧ decode_image files3 (2, 2)
      = Ok {| shape := (2, 2); data := [1; 1; 2; 3]%Z |}.
Proof.
  eexists _, _, _, _, _, _, _, _, _.
  split_and!; try (vm_compute; reflexivity).
  vm_compute. discriminate.
Qed.

(** ** The round trip on images with at least two distinct values *)

Lemma two_elements_length {A} (l : list A) (x y : A) :
  x ∈ l → y ∈ l → x ≠ y → 2 ≤ length l.
Proof.
  destruct l as [|a [|b l]]; simpl; [by intros ?%elem_of_nil| |lia].
  intros ->%list_elem_of_singleton ->%list_elem_of_singleton. done.
Qed.

Lemma reverse_codes_lookup (codes : dict Z bitstring) (c : bitstring)
    (k : Z) :
  NoDup codes.*2 →
  dict_get c (make_reverse_codes codes) = Some k ↔ (k, c) ∈ codes.
Proof.
  intros Hnd. rewrite make_reverse_codes_fresh by done. split.
  - intros ([k' c'] & [= -> ->] & Hin)%dict_get_Some_elem_of%list_elem_of_fmap.
    done.
  - intros Hin. apply dict_get_elem_of.
    + replace (((λ kv, (kv.2, kv.1)) <$> codes).*1) with (codes.*2); [done|].
      clear. induction codes as [|[??] codes IH]; [done|]. simpl. by f_equal.
    + apply list_elem_of_fmap. by exists (k, c).
Qed.

(** X18.  When the image has at least two distinct values, [decode_image]
    gives back, from the two files written by [compress] on a new instance,
    the pixels of the image in its shape. *)
Theorem compress_decode_roundtrip :
  ∀ image : list Z * (nat * nat),
    valid_image image →
    (∃ p q, p ∈ image.1 ∧ q ∈ image.1 ∧ p ≠ q) →
    ∃ self' files st,
      compress __init__ image = Ok (self', files, st)
      ∧ decode_image files image.2
        = Ok {| shape := (image.2.2, image.2.1); data := image.1 |}.
Proof.
  intros [pixel_array [width height]] [Hrange Hsize] (p & q & Hp & Hq & Hpq).
  simpl in *.
  destruct (compress_Ok __init__ pixel_array (width, height))
    as (root & padding_byte & byte_array & ratio & Hleaves & Hbuild & Henc
        & Hsome & Hcompress & Hratio & Hpad & Hlen & Hfold).
  { intros ->. by apply elem_of_nil in Hp. }
  cbv zeta in *. cbn [huffman_codes __init__] in *.
  assert (NoDup (tree_codes root []).*1) as Hkeys.
  { rewrite tree_codes_keys, Hleaves. apply calculate_frequencies_NoDup. }
  replace (dict_update [] (tree_codes root [])) with (tree_codes root [])
    in * by (symmetry; by apply (dict_update_fresh [])).
  destruct (leaves_two_Internal root) as (f & node_l & node_r & Hroot).
  { rewrite Hleaves. apply (two_elements_length _ p q); [| |done];
      by apply calculate_frequencies_keys. }
  eexists _, _, _. split; [exact Hcompress|]. cbn [fst snd].
  rewrite (decode_image_reshape _ _ [] pixel_array); [|  |done].
  { unfold reshape. cbn [fst snd]. rewrite decide_True; [done|]. lia. }
  unfold decode_loop_state. cbn [codes_json bin_file].
  rewrite load_codes_dumped by done. rsimpl.
  rewrite (read_binary_data_packed _ _ _ Hpad Hfold). f_equal.
  apply (decode_encoding (tree_codes root [])).
  - done.
  - apply tree_codes_prefix_free.
  - rewrite Hroot. apply tree_codes_Internal_nonempty.
  - intros c k. apply reverse_codes_lookup, tree_codes_values_NoDup.
  - apply list.Forall_forall. intros pixel Hin.
    rewrite tree_codes_keys, Hleaves. by apply calculate_frequencies_keys.
Qed.

Lemma compress_decode_roundtrip_witness :
  ∃ self' files st,
    compress __init__ ([1; 1; 2; 3]%Z, (2, 2)) = Ok (self', files, st)
    ∧ decode_image files (2, 2)
      = Ok {| shape := (2, 2); data := [1; 1; 2; 3]%Z |}.
Proof.
  apply (compress_decode_roundtrip ([1; 1; 2; 3]%Z, (2, 2))).
  - split; [|done]. simpl. repeat (apply Forall_cons_2; [lia|]).
    apply Forall_nil_2.
  - exists 1%Z, 2%Z. split_and!; [| |done].
    + apply list_elem_of_here.
    + do 2 apply list_elem_of_further. apply list_elem_of_here.
Defined.


(** * Further properties of the code *)

(** ** [calculate_frequencies] *)

Lemma filter_eq_not_elem_of (pixel : Z) (l : list Z) :
  pixel ∉ l → filter (eq pixel) l = [].
Proof.
  induction l as [|x l IH]; [done|].
  rewrite not_elem_of_cons. intros [Hne Hnotin].
  rewrite filter_cons_False by done. by apply IH.
Qed.

(** X1.  The table of [calculate_frequencies] maps every value of the pixel
    array to the number of its occurrences, and has no entry for a value
    that does not occur. *)
Theorem calculate_frequencies_count :
  ∀ (pixel_array : list Z) (pixel : Z),
    dict_get pixel (calculate_frequencies pixel_array)
    = (if decide (pixel ∈ pixel_array)
       then Some (length (filter (eq pixel) pixel_array))
       else None).
Proof.
  intros pixel_array pixel.
  induction pixel_array as [|p pixel_array IH] using rev_ind.
  { rewrite decide_False; [done|]. apply not_elem_of_nil. }
  rewrite calculate_frequencies_snoc. cbv zeta.
  rewrite list.filter_app, length_app.
  destruct (decide (p = pixel)) as [->|Hne].
  - rewrite dict_get_set_eq, IH.
    rewrite (decide_True (P := pixel ∈ pixel_array ++ [pixel]))
      by (apply elem_of_app; right; apply list_elem_of_here).
    rewrite filter_cons_True by done. simpl.
    case_decide as Hin; simpl; [f_equal; lia|].
    by rewrite filter_eq_not_elem_of.
  - rewrite dict_get_set_ne, IH by done.
    rewrite filter_cons_False by congruence. simpl.
    rewrite Nat.add_0_r.
    destruct (decide (pixel ∈ pixel_array)) as [Hin|Hin].
    + rewrite decide_True; [done|]. apply elem_of_app. by left.
    + rewrite decide_False; [done|].
      rewrite elem_of_app, list_elem_of_singleton. intros [?|?]; congruence.
Qed.

(** ** [encode_image] *)

Lemma dict_getitem_KeyError {K V} `{EqDecision K} (d : dict K V) (k : K) :
  dict_get k d = None → dict_getitem d k = Raise KeyError.
Proof. intros E. unfold dict_getitem. by rewrite E. Qed.

Lemma encode_image_loop_KeyError (codes : dict Z bitstring)
    (pixel_array : list Z) (encoded_data : bitstring) :
  ¬ Forall (λ pixel, is_Some (dict_get pixel codes)) pixel_array →
  for_ pixel_array
    (λ encoded_data pixel,
       code ← dict_getitem codes pixel; Ok (encoded_data ++ code))
    encoded_data
  = Raise KeyError.
Proof.
  revert encoded_data.
  induction pixel_array as [|pixel pixel_array IH]; intros encoded_data Hnot.
  { destruct Hnot. constructor. }
  simpl. destruct (dict_get pixel codes) as [code|] eqn:Hget.
  - rewrite (dict_getitem_Ok _ _ _ Hget). rsimpl. apply IH.
    intros Hall. apply Hnot. constructor; [by exists code|done].
  - by rewrite (dict_getitem_KeyError _ _ Hget).
Qed.

(** X2.  [encode_image] returns the concatenation of the codes of the
    pixels when every pixel has an entry in [self.huffman_codes], and
    raises [KeyError] as soon as one pixel has none; it has no other
    outcome. *)
Theorem encode_image_KeyError :
  ∀ (self : ImageCompressor) (pixel_array : list Z),
    encode_image self pixel_array
    = (if decide (Forall (λ pixel, is_Some (dict_get pixel (huffman_codes self)))
                    pixel_array)
       then Ok (encoding (huffman_codes self) pixel_array)
       else Raise KeyError).
Proof.
  intros self pixel_array. case_decide as Hall.
  - by apply encode_image_Ok.
  - by apply encode_image_loop_KeyError.
Qed.

(** ** The binary file *)

Lemma format_08b_length (b : byte) : length (format_08b b) = 8.
Proof. done. Qed.

Lemma unpack_join (byte_array : list byte) (binary_data : bitstring) :
  foldl (λ binary_data byte, binary_data ++ format_08b byte) binary_data
    byte_array
  = binary_data ++ mjoin (format_08b <$> byte_array).
Proof.
  revert binary_data. induction byte_array as [|b byte_array IH];
    intros binary_data; simpl.
  { by rewrite (right_id [] (++)). }
  rewrite IH. by rewrite <-(assoc (++)).
Qed.

(** X3.  Whatever the bit sequence of ['0'] and ['1'] characters and its
    length, [save_compressed] writes a binary file of
    [len(encoded_data) // 8 + 2] bytes from which [decode_image] reads
    back the padding length [8 - len(encoded_data) % 8] and exactly the
    bit sequence. *)
Theorem save_compressed_read_back :
  ∀ (encoded_data : bitstring) (codes : dict Z bitstring),
    Forall is_bit encoded_data →
    ∃ files,
      save_compressed encoded_data codes = Ok files
      ∧ length (bin_file files) = length encoded_data / 8 + 2
      ∧ read_padding_length (bin_file files)
        = 8 - length encoded_data `mod` 8
      ∧ read_binary_data (bin_file files) = encoded_data.
Proof.
  intros encoded_data codes Hbits.
  destruct (save_compressed_Ok encoded_data codes Hbits)
    as (padding_byte & byte_array & Hsave & Hpad & Hlen & Hfold).
  eexists. split; [exact Hsave|]. cbn [bin_file]. split_and!.
  - cbn [length]. lia.
  - done.
  - by apply read_binary_data_packed.
Qed.

Lemma save_compressed_read_back_witness :
  ∃ files,
    save_compressed ["1"; "0"; "1"]%char [] = Ok files
    ∧ length (bin_file files) = length ["1"; "0"; "1"]%char / 8 + 2
    ∧ read_padding_length (bin_file files)
      = 8 - length ["1"; "0"; "1"]%char `mod` 8
    ∧ read_binary_data (bin_file files) = ["1"; "0"; "1"]%char.
Proof.
  apply (save_compressed_read_back ["1"; "0"; "1"]%char []).
  repeat (apply Forall_cons_2; [by (left + right)|]). apply Forall_nil_2.
Defined.

(** X4.  [decode_image] accepts any first byte as padding length: it keeps
    the first [8 * len(byte_data) - padding_length] bits of the data bytes,
    none when the padding length exceeds them, and all of them when the
    padding length is 0 or the file is empty. *)
Theorem read_binary_data_take :
  ∀ bin : list byte,
    read_binary_data bin
    = take (8 * length (tail bin) - read_padding_length bin)
        (mjoin (format_08b <$> tail bin))
    ∧ length (read_binary_data bin)
      = 8 * length (tail bin) - read_padding_length bin.
Proof.
  intros bin.
  assert (length (mjoin (format_08b <$> tail bin)) = 8 * length (tail bin))
    as Hlen.
  { induction (tail bin) as [|b l IH]; [done|].
    change (mjoin (format_08b <$> b :: l))
      with (format_08b b ++ mjoin (format_08b <$> l)).
    rewrite length_app, IH, format_08b_length. cbn [length]. lia. }
  assert (read_binary_data bin
          = take (8 * length (tail bin) - read_padding_length bin)
              (mjoin (format_08b <$> tail bin))) as E.
  { unfold read_binary_data. rewrite unpack_join. cbn [app].
    rewrite Hlen. case_decide as Hpad; [done|].
    replace (read_padding_length bin) with 0 by lia.
    rewrite Nat.sub_0_r, <-Hlen. by rewrite firstn_all. }
  split; [done|]. rewrite E, length_take, Hlen. lia.
Qed.

(** ** The code table file *)

Lemma save_compressed_codes_json (encoded_data : bitstring)
    (codes : dict Z bitstring) (files : compressed_files) :
  save_compressed encoded_data codes = Ok files →
  codes_json files
  = foldl (λ acc '(k, v), dict_set (py_str k) v acc) [] codes.
Proof.
  unfold save_compressed.
  destruct (for_ _ _ _) as [byte_array|]; rsimpl; [|done].
  destruct (byte_of_int _) as [padding_byte|]; rsimpl; [|done].
  by intros [= <-].
Qed.

(** X5.  The code table written by [save_compressed] as JSON, with the
    symbols as decimal strings, is read back by [decode_image] as the same
    table: same symbols, same codes, same order. *)
Theorem codes_json_read_back :
  ∀ (encoded_data : bitstring) (codes : dict Z bitstring)
    (files : compressed_files),
    NoDup codes.*1 →
    save_compressed encoded_data codes = Ok files →
    load_codes (codes_json files) = Ok codes.
Proof.
  intros encoded_data codes files Hnd Hsave.
  rewrite (save_compressed_codes_json _ _ _ Hsave).
  by apply load_codes_dumped.
Qed.

Lemma codes_json_read_back_witness :
  ∃ files,
    save_compressed [] [(0%Z, ["0"%char]); (255%Z, ["1"%char])] = Ok files
    ∧ load_codes (codes_json files)
      = Ok [(0%Z, ["0"%char]); (255%Z, ["1"%char])].
Proof.
  eexists. split; [vm_compute; reflexivity|].
  apply (codes_json_read_back [] [(0%Z, ["0"%char]); (255%Z, ["1"%char])]).
  - apply (bool_decide_unpack _). vm_compute. exact I.
  - vm_compute. reflexivity.
Defined.

(** ** [compress] and the state of the instance *)

Lemma encode_image_ext (self self' : ImageCompressor) (pixel_array : list Z) :
  Forall (λ pixel, dict_get pixel (huffman_codes self)
                   = dict_get pixel (huffman_codes self')) pixel_array →
  encode_image self pixel_array = encode_image self' pixel_array.
Proof.
  intros Hall. unfold encode_image. generalize (@nil ascii).
  induction Hall as [|pixel pixel_array E _ IH]; intros encoded_data; [done|].
  simpl. destruct (dict_get pixel (huffman_codes self')) as [code|] eqn:Hget.
  - rewrite !(dict_getitem_Ok _ pixel code) by congruence. rsimpl. apply IH.
  - by rewrite !(dict_getitem_KeyError _ pixel) by congruence.
Qed.

Lemma save_compressed_bin_file (encoded_data : bitstring)
    (codes codes' : dict Z bitstring) (files : compressed_files) :
  save_compressed encoded_data codes = Ok files →
  ∃ files', save_compressed encoded_data codes' = Ok files'
            ∧ bin_file files' = bin_file files.
Proof.
  unfold save_compressed.
  destruct (for_ _ _ _) as [byte_array|]; rsimpl; [|done].
  destruct (byte_of_int _) as [padding_byte|]; rsimpl; [|done].
  intros [= <-]. by eexists.
Qed.

Lemma compress_finish_ext (self self' : ImageCompressor)
    (pixel_array : list Z) (size : nat * nat) r :
  Forall (λ pixel, dict_get pixel (huffman_codes self)
                   = dict_get pixel (huffman_codes self')) pixel_array →
  compress_finish self pixel_array size = Ok r →
  ∃ files', compress_finish self' pixel_array size = Ok (self', files', r.2)
            ∧ bin_file files' = bin_file r.1.2.
Proof.
  intros Hall. unfold compress_finish.
  rewrite <-(encode_image_ext self self') by done.
  destruct (encode_image self pixel_array) as [encoded_data|]; rsimpl; [|done].
  destruct (save_compressed encoded_data (huffman_codes self))
    as [files|] eqn:Hsave; rsimpl; [|done].
  destruct (save_compressed_bin_file _ _ (huffman_codes self') _ Hsave)
    as (files' & -> & Hbin). rsimpl. cbv zeta.
  destruct (calculate_compression_ratio _ _); rsimpl; [|done].
  intros [= <-]. by exists files'.
Qed.

(** X6.  The entries that earlier calls left in [self.huffman_codes] reach
    only the code table file.  When [compress] succeeds on one instance, it
    succeeds on every instance for the same image, with the same binary
    file, the same statistics and the same tree. *)
Theorem compress_bin_file_independent :
  ∀ (self self' : ImageCompressor) (image : list Z * (nat * nat)) r,
    compress self image = Ok r →
    ∃ r', compress self' image = Ok r'
          ∧ bin_file r'.1.2 = bin_file r.1.2
          ∧ r'.2 = r.2
          ∧ huffman_tree r'.1.1 = huffman_tree r.1.1.
Proof.
  intros self self' [pixel_array size] r Hr.
  destruct pixel_array as [|pixel pixel_array]; [done|].
  set (pixels := pixel :: pixel_array) in *.
  destruct (build_huffman_tree_Ok self (calculate_frequencies pixels))
    as (root & Hbuild & Hleaves).
  { by apply calculate_frequencies_nonempty. }
  assert (NoDup (tree_codes root []).*1) as Hnd.
  { rewrite tree_codes_keys, Hleaves. apply calculate_frequencies_NoDup. }
  rewrite compress_unfold, Hbuild in Hr. rsimpl in Hr.
  unfold generate_huffman_codes in Hr. cbn [huffman_tree huffman_codes] in Hr.
  rsimpl in Hr. rewrite generate_huffman_codes_at_update in Hr.
  rewrite compress_unfold.
  rewrite (build_huffman_tree_self self self' _ _ _ Hbuild). rsimpl.
  unfold generate_huffman_codes. cbn [huffman_tree huffman_codes]. rsimpl.
  rewrite generate_huffman_codes_at_update.
  pose proof (compress_finish_self _ _ _ _ Hr) as Hself.
  eapply compress_finish_ext in Hr as (files' & -> & Hbin).
  - eexists. split; [done|]. cbn [fst snd]. rewrite Hself.
    by cbn [huffman_tree].
  - cbn [huffman_codes]. apply list.Forall_forall. intros p Hin.
    apply calculate_frequencies_keys in Hin.
    rewrite <-Hleaves, <-(tree_codes_keys root []) in Hin.
    apply list_elem_of_fmap in Hin as ([k c] & -> & Hin). simpl.
    by rewrite !(dict_get_update_elem_of _ _ k c).
Qed.

Lemma compress_bin_file_independent_witness :
  ∃ r, compress __init__ ([1; 1; 2; 3]%Z, (2, 2)) = Ok r
       ∧ ∃ r', compress {| huffman_codes := [(4%Z, ["0"%char])];
                           huffman_tree := None |}
                 ([1; 1; 2; 3]%Z, (2, 2)) = Ok r'
               ∧ bin_file r'.1.2 = bin_file r.1.2
               ∧ r'.2 = r.2
               ∧ huffman_tree r'.1.1 = huffman_tree r.1.1.
Proof.
  eexists. split; [vm_compute; reflexivity|].
  apply (compress_bin_file_independent __init__). vm_compute. reflexivity.
Defined.

(** X7.  [compress] fails on the empty pixel array only, and then with
    [IndexError]: for a pixel array with at least one pixel it returns a
    result on every instance, whatever entries the instance holds and
    whatever the values of the pixels; it never raises [KeyError],
    [ValueError] or [ZeroDivisionError]. *)
Theorem compress_fails_only_on_empty :
  ∀ (self : ImageCompressor) (pixel_array : list Z) (size : nat * nat),
    ((∃ r, compress self (pixel_array, size) = Ok r) ↔ pixel_array ≠ [])
    ∧ (∀ e, compress self (pixel_array, size) = Raise e →
            pixel_array = [] ∧ e = IndexError).
Proof.
  intros self pixel_array size.
  destruct pixel_array as [|pixel pixel_array].
  { rewrite compress_nil. split; [split; [by intros [? ?]|done]|].
    by intros e [= <-]. }
  destruct (compress_Ok self (pixel :: pixel_array) size)
    as (root & padding_byte & byte_array & ratio & _ & _ & _ & _ & Hcompress
        & _); [done|].
  cbv zeta in Hcompress. rewrite Hcompress.
  split; [split; [done|by eexists]|done].
Qed.

(** ** The decoding loop *)

(** X8.  The loop of [decode_image] cuts the bits into matched codes
    followed by what is left in [current_code]: the bits are the
    concatenation of codes of the reverse table, none of them empty, one
    for each decoded pixel and in the same order, followed by
    [current_code]; a non-empty [current_code] is not a key of the reverse
    table.  So there are never more decoded pixels than bits. *)
Theorem decode_loop_cuts_bits :
  ∀ (reverse_codes : dict bitstring Z) (binary_data : bitstring),
    ∃ matched : list bitstring,
      let st := foldl (decode_step reverse_codes) ([], []) binary_data in
      binary_data = mjoin matched ++ st.1
      ∧ Forall2 (λ c pixel, c ≠ [] ∧ dict_get c reverse_codes = Some pixel)
          matched st.2
      ∧ (st.1 ≠ [] → dict_get st.1 reverse_codes = None)
      ∧ length st.2 ≤ length binary_data.
Proof.
  intros reverse_codes binary_data. cbv zeta.
  assert (∃ matched : list bitstring,
    let st := foldl (decode_step reverse_codes) ([], []) binary_data in
    binary_data = mjoin matched ++ st.1
    ∧ Forall2 (λ c pixel, c ≠ [] ∧ dict_get c reverse_codes = Some pixel)
        matched st.2
    ∧ (st.1 ≠ [] → dict_get st.1 reverse_codes = None))
    as (matched & Hbits & Hmatched & Hleft).
  { induction binary_data as [|bit binary_data IH] using rev_ind.
    { exists []. simpl. split_and!; [done|constructor|done]. }
    destruct IH as (matched & Hbits & Hmatched & Hleft). cbv zeta in *.
    rewrite foldl_snoc.
    destruct (foldl (decode_step reverse_codes) ([], []) binary_data)
      as [current_code decoded_pixels]. cbn [fst snd] in *.
    unfold decode_step.
    destruct (dict_get (current_code ++ [bit]) reverse_codes)
      as [pixel|] eqn:Hget; cbn [fst snd].
    - exists (matched ++ [current_code ++ [bit]]). split_and!.
      + rewrite join_app. simpl. rewrite !(right_id [] (++)).
        by rewrite Hbits at 1; rewrite <-(assoc (++)).
      + apply Forall2_app; [done|]. constructor; [|constructor].
        split; [by destruct current_code|done].
      + done.
    - exists matched. split_and!.
      + by rewrite Hbits at 1; rewrite <-(assoc (++)).
      + done.
      + done. }
  exists matched. split_and!; [done..|].
  cbv zeta in *. rewrite Hbits at 2.
  rewrite length_app. pose proof Hmatched as <-%list.Forall2_length.
  clear -Hmatched. induction Hmatched as [|c pixel cs pixels [Hc _] _ IH].
  { simpl. lia. }
  change (mjoin (c :: cs)) with (c ++ mjoin cs). rewrite length_app.
  destruct c; [done|]. simpl in *. lia.
Qed.

(** ** The frequencies in the tree *)

Lemma push_leaves_nodes (frequencies : dict Z nat) (heap : list HuffmanNode) :
  ∃ heap',
    for_ frequencies
      (λ heap '(value, freq), heapq.heappush heap (Leaf value freq)) heap
    = Ok heap'
    ∧ heap' ≡ₚ heap ++ ((λ kv, Leaf kv.1 kv.2) <$> frequencies).
Proof.
  revert heap. induction frequencies as [|[value f] frequencies IH];
    intros heap; simpl.
  { exists heap. by rewrite (right_id [] (++)). }
  destruct (heappush_Permutation heap (Leaf value f)) as (heap1 & -> & Hperm).
  rsimpl. destruct (IH heap1) as (heap' & -> & Hperm').
  exists heap'. split; [done|].
  rewrite Hperm', Hperm. simpl. apply Permutation_middle.
Qed.

Lemma build_huffman_tree_loop_entries (n : nat) (heap : list HuffmanNode) :
  heap ≠ [] → length heap ≤ S n → Forall weights_consistent heap →
  ∃ root, build_huffman_tree_loop n heap = Ok [root]
          ∧ leaf_entries root ≡ₚ heap ≫= leaf_entries
          ∧ weights_consistent root.
Proof.
  revert heap. induction n as [|n IH]; intros heap Hne Hlen Hall;
    cbn [build_huffman_tree_loop].
  { destruct heap as [|root [|??]]; simpl in *; [done| |lia].
    exists root. rewrite (right_id [] (++)).
    split_and!; [done|done|by apply Forall_cons_1 in Hall as [? _]]. }
  case_decide as Hlong; last first.
  { destruct heap as [|root [|??]]; simpl in *; [done| |lia].
    exists root. rewrite (right_id [] (++)).
    split_and!; [done|done|by apply Forall_cons_1 in Hall as [? _]]. }
  destruct (heappop_Permutation heap Hne) as (node_l & heap1 & -> & Hperm1).
  rsimpl. cbn [fst snd].
  assert (length heap = S (length heap1)) as Hlen1 by by rewrite <-Hperm1.
  destruct (heappop_Permutation heap1) as (node_r & heap2 & -> & Hperm2).
  { intros ->. simpl in *. lia. }
  rsimpl. cbn [fst snd].
  assert (length heap1 = S (length heap2)) as Hlen2 by by rewrite <-Hperm2.
  destruct (heappush_Permutation heap2
              (Internal (freq node_l + freq node_r) node_l node_r))
    as (heap3 & -> & Hperm3).
  rsimpl.
  rewrite <-Hperm1, <-Hperm2 in Hall.
  apply Forall_cons_1 in Hall as [Hl Hall].
  apply Forall_cons_1 in Hall as [Hr Hall].
  destruct (IH heap3) as (root & -> & Hroot & Hw).
  { intros ->. by apply Permutation_nil_cons in Hperm3. }
  { rewrite Hperm3. simpl. lia. }
  { rewrite Hperm3. by constructor. }
  exists root. split_and!; [done| |done].
  rewrite Hroot, Hperm3, <-Hperm1, <-Hperm2. simpl.
  by rewrite (assoc (++)).
Qed.

Lemma sum_list_append (l k : list nat) :
  sum_list (l ++ k) = sum_list l + sum_list k.
Proof. induction l as [|x l IH]; simpl; [done|]. rewrite IH. lia. Qed.

Lemma weights_consistent_freq (node : HuffmanNode) :
  weights_consistent node → freq node = sum_list (leaf_entries node).*2.
Proof.
  induction node as [value f|f node_l IHl node_r IHr]; simpl.
  { intros _. lia. }
  intros (-> & Hl & Hr). rewrite fmap_app, sum_list_append.
  by rewrite IHl, IHr.
Qed.

Lemma calculate_frequencies_total (pixel_array : list Z) :
  sum_list (calculate_frequencies pixel_array).*2 = length pixel_array.
Proof.
  induction pixel_array as [|pixel pixel_array IH] using rev_ind; [done|].
  rewrite calculate_frequencies_snoc, length_app. cbv zeta.
  rewrite <-IH. clear IH.
  induction (calculate_frequencies pixel_array) as [|[k f] d IHd]; [done|].
  cbn [dict_get dict_set]. case_decide; cbn [fmap list_fmap snd sum_list];
    [simpl; lia|].
  change (list_fmap _ _ snd ?l) with (l.*2). rewrite IHd. simpl. lia.
Qed.

(** X9.  For a pixel array with at least one pixel, the tree built by
    [build_huffman_tree] from its frequency table has exactly the entries
    of the table at its leaves, each value with its number of occurrences,
    the frequency of every internal node is the sum of the frequencies of
    its two children, and the frequency of the root is the number of
    pixels. *)
Theorem build_huffman_tree_weights :
  ∀ (self : ImageCompressor) (pixel_array : list Z),
    pixel_array ≠ [] →
    ∃ root,
      build_huffman_tree self (calculate_frequencies pixel_array)
      = Ok {| huffman_codes := huffman_codes self;
              huffman_tree := Some root |}
      ∧ leaf_entries root ≡ₚ calculate_frequencies pixel_array
      ∧ weights_consistent root
      ∧ freq root = length pixel_array.
Proof.
  intros self pixel_array Hne. unfold build_huffman_tree.
  destruct (push_leaves_nodes (calculate_frequencies pixel_array) [])
    as (heap & -> & Hperm).
  rsimpl. simpl in Hperm.
  assert (heap ≠ []) as Hheap.
  { intros ->. symmetry in Hperm. apply Permutation_nil_r in Hperm.
    apply fmap_nil_inv in Hperm.
    by apply (calculate_frequencies_nonempty pixel_array). }
  destruct (build_huffman_tree_loop_entries (length heap) heap Hheap)
    as (root & -> & Hroot & Hw); [lia| |].
  { rewrite Hperm. apply Forall_fmap, Forall_true. done. }
  rsimpl. exists root.
  assert (leaf_entries root ≡ₚ calculate_frequencies pixel_array) as Hentries.
  { rewrite Hroot, Hperm. clear.
    induction (calculate_frequencies pixel_array) as [|[k f] d IH]; [done|].
    simpl. by rewrite IH. }
  split_and!; [done..|].
  rewrite (weights_consistent_freq root Hw), Hentries.
  apply calculate_frequencies_total.
Qed.

Lemma build_huffman_tree_weights_witness :
  ∃ root,
    build_huffman_tree __init__ (calculate_frequencies [1; 1; 2; 3]%Z)
    = Ok {| huffman_codes := huffman_codes __init__;
            huffman_tree := Some root |}
    ∧ leaf_entries root ≡ₚ calculate_frequencies [1; 1; 2; 3]%Z
    ∧ weights_consistent root
    ∧ freq root = length [1; 1; 2; 3]%Z.
Proof. apply (build_huffman_tree_weights __init__ [1; 1; 2; 3]%Z). done. Defined.

(** ** The lengths of the codes *)

Lemma tree_codes_length_leaves (node : HuffmanNode) (code : bitstring) kv :
  kv ∈ tree_codes node code →
  length kv.2 + 1 ≤ length code + length (leaves node).
Proof.
  revert code. induction node as [value f|f node_l IHl node_r IHr];
    intros code; simpl.
  { rewrite list_elem_of_singleton. intros ->. simpl. lia. }
  pose proof (leaves_nonempty node_l). pose proof (leaves_nonempty node_r).
  destruct (leaves node_l) eqn:El; [done|].
  destruct (leaves node_r) eqn:Er; [done|].
  rewrite elem_of_app, length_app. simpl in *.
  intros [Hin|Hin].
  - apply IHl in Hin. rewrite length_app in Hin. simpl in Hin. lia.
  - apply IHr in Hin. rewrite length_app in Hin. simpl in Hin. lia.
Qed.

Lemma uint8_values_length (l : list Z) :
  NoDup l → Forall (λ x, 0 ≤ x < 256)%Z l → length l ≤ 256.
Proof.
  intros Hnd Hrange.
  assert (l ⊆+ seqZ 0 256) as Hsub.
  { apply NoDup_submseteq; [done|]. intros x Hx.
    apply elem_of_seqZ. rewrite list.Forall_forall in Hrange.
    specialize (Hrange x Hx). lia. }
  apply submseteq_length in Hsub. by rewrite length_seqZ in Hsub.
Qed.

(** X10.  After a successful [compress], every pixel of the image has a
    code in [self.huffman_codes] that is shorter than the number of
    distinct values of the image; with pixels in [0,255] no code has more
    than 255 bits. *)
Theorem compress_code_length_bound :
  ∀ (self : ImageCompressor) (pixel_array : list Z) (size : nat * nat) r,
    compress self (pixel_array, size) = Ok r →
    ∀ pixel, pixel ∈ pixel_array →
      ∃ code, dict_get pixel (huffman_codes r.1.1) = Some code
              ∧ length code < length (calculate_frequencies pixel_array)
              ∧ (Forall (λ x, 0 ≤ x < 256)%Z pixel_array →
                 length code ≤ 255).
Proof.
  intros self pixel_array size r Hr pixel Hin.
  destruct (compress_Ok self pixel_array size)
    as (root & padding_byte & byte_array & ratio & Hleaves & Hbuild & Henc
        & Hsome & Hcompress & _).
  { intros ->. by apply elem_of_nil in Hin. }
  cbv zeta in *. rewrite Hcompress in Hr. injection Hr as <-.
  cbn [fst huffman_codes].
  assert (NoDup (tree_codes root []).*1) as Hnd.
  { rewrite tree_codes_keys, Hleaves. apply calculate_frequencies_NoDup. }
  pose proof Hin as Hkey. apply calculate_frequencies_keys in Hkey.
  rewrite <-Hleaves, <-(tree_codes_keys root []) in Hkey.
  apply list_elem_of_fmap in Hkey as ([k code] & -> & Hkey). simpl.
  exists code. rewrite (dict_get_update_elem_of _ _ k code) by done.
  apply tree_codes_length_leaves in Hkey as Hlen. simpl in Hlen.
  rewrite Hleaves, length_fmap in Hlen.
  split_and!; [done|lia|].
  intros Hrange.
  pose proof (uint8_values_length (calculate_frequencies pixel_array).*1)
    as Hkeys.
  rewrite length_fmap in Hkeys.
  assert (length (calculate_frequencies pixel_array) ≤ 256); [|lia].
  apply Hkeys; [apply calculate_frequencies_NoDup|].
  apply list.Forall_forall. intros x Hx.
  apply (proj1 (calculate_frequencies_keys _ _)) in Hx.
  rewrite list.Forall_forall in Hrange. by apply Hrange.
Qed.

Lemma compress_code_length_bound_witness :
  ∃ r, compress __init__ ([1; 1; 2; 3]%Z, (2, 2)) = Ok r
       ∧ ∀ pixel, pixel ∈ [1; 1; 2; 3]%Z →
           ∃ code, dict_get pixel (huffman_codes r.1.1) = Some code
                   ∧ length code < length (calculate_frequencies [1; 1; 2; 3]%Z)
                   ∧ (Forall (λ x, 0 ≤ x < 256)%Z [1; 1; 2; 3]%Z →
                      length code ≤ 255).
Proof.
  eexists. split; [vm_compute; reflexivity|].
  apply (compress_code_length_bound __init__ [1; 1; 2; 3]%Z (2, 2)).
  vm_compute. reflexivity.
Defined.

(** ** The number of encoded bits *)

Lemma encoding_snoc (codes : dict Z bitstring) (pixel_array : list Z)
    (pixel : Z) :
  encoding codes (pixel_array ++ [pixel])
  = encoding codes pixel_array ++ default [] (dict_get pixel codes).
Proof.
  unfold encoding. rewrite bind_app. simpl. by rewrite (right_id [] (++)).
Qed.

Lemma weighted_sum_dict_set (w : Z → nat) (table : dict Z nat) (pixel : Z) :
  sum_list ((λ kv, kv.2 * w kv.1)
            <$> dict_set pixel (default 0 (dict_get pixel table) + 1) table)
  = sum_list ((λ kv, kv.2 * w kv.1) <$> table) + w pixel.
Proof.
  induction table as [|[k f] table IH]; [simpl; lia|].
  cbn [dict_get dict_set]. case_decide as Hk.
  - subst. simpl. lia.
  - rewrite !fmap_cons. cbn [sum_list]. rewrite IH. simpl. lia.
Qed.

Lemma encoding_length_weighted (codes : dict Z bitstring)
    (pixel_array : list Z) :
  length (encoding codes pixel_array)
  = sum_list ((λ kv, kv.2 * length (default [] (dict_get kv.1 codes)))
              <$> calculate_frequencies pixel_array).
Proof.
  induction pixel_array as [|pixel pixel_array IH] using rev_ind; [done|].
  rewrite encoding_snoc, length_app, calculate_frequencies_snoc. cbv zeta.
  rewrite (weighted_sum_dict_set
             (λ k, length (default [] (dict_get k codes)))).
  by rewrite IH.
Qed.

(** X11.  The [compressed_bits] returned by [compress] is the sum, over the
    entries of the frequency table, of the number of occurrences of the
    value times the length of its code in [self.huffman_codes]. *)
Theorem compress_bits_weighted_sum :
  ∀ (self : ImageCompressor) (pixel_array : list Z) (size : nat * nat) r,
    compress self (pixel_array, size) = Ok r →
    compressed_bits r.2
    = sum_list
        ((λ kv, kv.2 * length (default []
                                 (dict_get kv.1 (huffman_codes r.1.1))))
         <$> calculate_frequencies pixel_array).
Proof.
  intros self pixel_array size r Hr.
  destruct (decide (pixel_array = [])) as [->|Hne]; [done|].
  destruct (compress_Ok self pixel_array size Hne)
    as (root & padding_byte & byte_array & ratio & Hleaves & Hbuild & Henc
        & Hsome & Hcompress & _).
  cbv zeta in *. rewrite Hcompress in Hr. injection Hr as <-.
  cbn [fst snd compressed_bits huffman_codes].
  by rewrite <-Henc, encoding_length_weighted.
Qed.

Lemma compress_bits_weighted_sum_witness :
  ∃ r, compress __init__ ([1; 1; 2; 3]%Z, (2, 2)) = Ok r
       ∧ compressed_bits r.2
         = sum_list
             ((λ kv, kv.2 * length (default []
                                      (dict_get kv.1 (huffman_codes r.1.1))))
              <$> calculate_frequencies [1; 1; 2; 3]%Z).
Proof.
  eexists. split; [vm_compute; reflexivity|].
  apply (compress_bits_weighted_sum __init__ [1; 1; 2; 3]%Z (2, 2)).
  vm_compute. reflexivity.
Defined.

(** ** [heapq]: the heap order

    The order of the heap is kept for every [<] that is asymmetric and
    whose negation is transitive, as the comparison of frequencies is. *)

Lemma parent_lt (i : nat) : 0 < i → (i - 1) / 2 < i.
Proof. intros Hi. apply Nat.Div0.div_lt_upper_bound. lia. Qed.

Lemma parent_child (c pos : nat) :
  0 < c → (c - 1) / 2 = pos → c = 2 * pos + 1 ∨ c = 2 * pos + 2.
Proof.
  intros Hc <-. pose proof (Nat.div_mod_eq (c - 1) 2).
  pose proof (Nat.mod_upper_bound (c - 1) 2). lia.
Qed.

Lemma child_parent_left (pos : nat) : (2 * pos + 1 - 1) / 2 = pos.
Proof.
  replace (2 * pos + 1 - 1) with (pos * 2) by lia. by apply Nat.div_mul.
Qed.

Lemma child_parent_right (pos : nat) : (2 * pos + 1 + 1 - 1) / 2 = pos.
Proof.
  replace (2 * pos + 1 + 1 - 1) with (1 + pos * 2) by lia.
  by rewrite Nat.div_add.
Qed.

Section heap_order.
Context {A : Type} `{PyLt A}.
Hypothesis lt_asym : ∀ a b : A, py_lt a b = true → py_lt b a = false.
Hypothesis nlt_trans :
  ∀ a b c : A, py_lt b a = false → py_lt c b = false → py_lt c a = false.
Implicit Types heap : list A.

Lemma py_lt_irrefl (a : A) : py_lt a a = false.
Proof using lt_asym.
  destruct (py_lt a a) eqn:E; [|done]. by rewrite (lt_asym a a E) in E.
Qed.

Lemma heap_except_insert heap pos x :
  heap_except heap pos → heap_except (<[pos:=x]> heap) pos.
Proof.
  intros [E1 E2]. split.
  - intros i child parent Hi Hne Hpar.
    rewrite !list_lookup_insert_ne by done. by apply E1.
  - intros c child grandparent Hpos Hc Hcp.
    pose proof (parent_lt pos Hpos).
    assert (pos ≠ c) by (destruct (parent_child c pos Hc Hcp); lia).
    rewrite !list_lookup_insert_ne by lia. by apply E2.
Qed.

Lemma _siftdown_loop_is_heap n heap newitem pos :
  pos ≤ n → pos < length heap → heap_except heap pos →
  (∀ c child, 0 < c → (c - 1) / 2 = pos → heap !! c = Some child →
              py_lt child newitem = false) →
  ∃ heap', heapq._siftdown_loop n heap 0 newitem pos = Ok heap'
           ∧ is_heap heap'.
Proof using lt_asym nlt_trans.
  revert heap pos. induction n as [|n IH];
    intros heap pos Hn Hpos [E1 E2] Hchildren;
    cbn [heapq._siftdown_loop].
  { rewrite list_setitem_lt by done. eexists. split; [done|].
    intros i child parent Hi. assert (pos = 0) as -> by lia.
    destruct (decide ((i - 1) / 2 = 0)) as [Hpar|Hpar].
    - rewrite Hpar, list_lookup_insert_ne, list_lookup_insert_eq by lia.
      intros Hc [= <-]. by apply (Hchildren i).
    - rewrite !list_lookup_insert_ne by lia. by apply E1; lia. }
  assert (∃ heap', list_setitem heap pos newitem = Ok heap'
            ∧ ((0 < pos → ∀ parent, heap !! ((pos - 1) / 2) = Some parent →
                          py_lt newitem parent = false) → is_heap heap'))
    as (heap_exit & Hexit & Hheap_exit).
  { rewrite list_setitem_lt by done. eexists. split; [done|].
    intros Hparent i child parent Hi.
    pose proof (parent_lt i Hi).
    destruct (decide (i = pos)) as [->|Hne].
    - rewrite list_lookup_insert_eq, list_lookup_insert_ne by lia.
      intros [= <-]. by apply Hparent.
    - rewrite (list_lookup_insert_ne _ pos i) by done.
      destruct (decide ((i - 1) / 2 = pos)) as [Hpar|Hpar].
      + rewrite Hpar, list_lookup_insert_eq by done.
        intros Hc [= <-]. by apply (Hchildren i).
      + rewrite list_lookup_insert_ne by done. by apply E1. }
  case_decide as Hstart; last first.
  { exists heap_exit. split; [done|]. apply Hheap_exit. lia. }
  pose proof (parent_lt pos Hstart) as Hpp.
  destruct (list_getitem_lt heap ((pos - 1) / 2)) as (parent & Hp & ->);
    [lia|]. rsimpl.
  destruct (py_lt newitem parent) eqn:Hlt; last first.
  { exists heap_exit. split; [done|]. apply Hheap_exit.
    intros _ parent'. rewrite Hp. by intros [= <-]. }
  rewrite list_setitem_lt by done. rsimpl.
  apply IH.
  - lia.
  - rewrite length_insert. lia.
  - split.
    + intros i child parent' Hi Hne Hpar.
      destruct (decide (i = pos)) as [->|Hipos]; [done|].
      rewrite (list_lookup_insert_ne _ pos i) by done.
      destruct (decide ((i - 1) / 2 = pos)) as [Hip|Hip].
      * rewrite Hip, list_lookup_insert_eq by done.
        intros Hc [= <-]. by apply (E2 i child parent).
      * rewrite list_lookup_insert_ne by done. by apply E1.
    + intros c child grandparent Hpp0 Hc Hcp.
      pose proof (parent_lt _ Hpp0).
      rewrite (list_lookup_insert_ne _ pos ((_ - 1) / 2)) by lia.
      intros Hchild Hgp.
      assert (py_lt parent grandparent = false) as Hpg.
      { apply (E1 ((pos - 1) / 2)); [done|lia|lia|done|done]. }
      destruct (decide (c = pos)) as [->|Hcpos].
      * rewrite list_lookup_insert_eq in Hchild by done.
        by injection Hchild as <-.
      * rewrite list_lookup_insert_ne in Hchild by done.
        apply (nlt_trans _ parent); [done|].
        apply (E1 c); [done|done|lia|done|by rewrite Hcp].
  - intros c child Hc Hcp.
    destruct (decide (c = pos)) as [->|Hcpos].
    + rewrite list_lookup_insert_eq by done. intros [= <-].
      by apply lt_asym.
    + rewrite list_lookup_insert_ne by done. intros Hchild.
      apply (nlt_trans _ parent); [by apply lt_asym|].
      apply (E1 c); [done|done|lia|done|by rewrite Hcp].
Qed.

Lemma _siftdown_is_heap heap pos :
  pos < length heap → heap_except heap pos →
  (∀ c child newitem, 0 < c → (c - 1) / 2 = pos → heap !! c = Some child →
                      heap !! pos = Some newitem →
                      py_lt child newitem = false) →
  ∃ heap', heapq._siftdown heap 0 pos = Ok heap' ∧ is_heap heap'.
Proof using lt_asym nlt_trans.
  intros Hpos Hexc Hchildren. unfold heapq._siftdown.
  destruct (list_getitem_lt heap pos Hpos) as (newitem & Hn & ->). rsimpl.
  apply _siftdown_loop_is_heap; [done|done|done|].
  intros c child Hc Hcp Hchild. by apply (Hchildren c).
Qed.

Lemma _siftup_loop_hole n heap pos :
  length heap - pos ≤ n → pos < length heap → heap_except heap pos →
  ∃ heap' pos',
    heapq._siftup_loop n heap (length heap) pos = Ok (heap', pos')
    ∧ length heap' = length heap
    ∧ pos' < length heap' ≤ 2 * pos' + 1
    ∧ heap_except heap' pos'.
Proof using lt_asym.
  remember (length heap) as endpos eqn:Hend.
  revert heap pos Hend. induction n as [|n IH];
    intros heap pos Hend Hn Hpos [E1 E2]; cbn [heapq._siftup_loop].
  { exists heap, pos. split_and!; [done|done|lia|lia|done]. }
  case_decide as Hchild; last first.
  { exists heap, pos. split_and!; [done|done|lia|lia|done]. }
  destruct (list_getitem_lt heap (2 * pos + 1)) as (c & Hc & Hcget); [lia|].
  assert (∃ childpos child,
    (if decide (2 * pos + 1 + 1 < endpos)
     then c ← list_getitem heap (2 * pos + 1);
          r ← list_getitem heap (2 * pos + 1 + 1);
          Ok (if negb (py_lt c r) then 2 * pos + 1 + 1 else 2 * pos + 1)
     else Ok (2 * pos + 1)) = Ok childpos
    ∧ (childpos = 2 * pos + 1 ∨ childpos = 2 * pos + 1 + 1)
    ∧ childpos < endpos
    ∧ heap !! childpos = Some child
    ∧ ∀ s sibling, (s = 2 * pos + 1 ∨ s = 2 * pos + 1 + 1) →
                   heap !! s = Some sibling → py_lt sibling child = false)
    as (childpos & child & Hsel & Hwhich & Hlt & Hchildget & Hmin).
  { case_decide as Hright.
    - destruct (list_getitem_lt heap (2 * pos + 1 + 1)) as (r & Hr & Hrget);
        [lia|].
      rewrite Hcget, Hrget. rsimpl.
      destruct (py_lt c r) eqn:Hcr; cbn [negb].
      + exists (2 * pos + 1), c. split_and!; [done|by left|lia|done|].
        intros s sibling [->| ->]; rewrite ?Hc, ?Hr; intros [= <-].
        * apply py_lt_irrefl.
        * by apply lt_asym.
      + exists (2 * pos + 1 + 1), r. split_and!; [done|by right|lia|done|].
        intros s sibling [->| ->]; rewrite ?Hc, ?Hr; intros [= <-].
        * done.
        * apply py_lt_irrefl.
    - exists (2 * pos + 1), c. split_and!; [done|by left|lia|done|].
      intros s sibling [->| ->]; rewrite ?Hc; [intros [= <-]|].
      + apply py_lt_irrefl.
      + intros Hs%lookup_lt_Some. lia. }
  rewrite Hsel. rsimpl. rewrite (list_getitem_Ok _ _ _ Hchildget). rsimpl.
  rewrite list_setitem_lt by lia. rsimpl.
  assert ((childpos - 1) / 2 = pos) as Hcp.
  { destruct Hwhich as [->| ->];
      [apply child_parent_left|apply child_parent_right]. }
  destruct (IH (<[pos:=child]> heap) childpos)
    as (heap' & pos' & -> & Hlen' & Hleaf & Hexc').
  - by rewrite length_insert.
  - lia.
  - lia.
  - split.
    + intros i x parent Hi Hne Hpar.
      destruct (decide (i = pos)) as [->|Hipos].
      * pose proof (parent_lt pos Hi).
        rewrite list_lookup_insert_eq, list_lookup_insert_ne by lia.
        intros [= <-]. by apply (E2 childpos); [done|lia|done|done].
      * rewrite (list_lookup_insert_ne _ pos i) by done.
        destruct (decide ((i - 1) / 2 = pos)) as [Hip|Hip].
        -- rewrite Hip, list_lookup_insert_eq by lia.
           intros Hx [= <-]. apply (Hmin i); [|done].
           destruct (parent_child i pos Hi Hip); lia.
        -- rewrite list_lookup_insert_ne by done. by apply E1.
    + intros g x grandparent _ Hg Hgp.
      rewrite Hcp, list_lookup_insert_eq by lia.
      assert (g ≠ pos).
      { destruct (parent_child g childpos Hg Hgp); lia. }
      rewrite list_lookup_insert_ne by done.
      intros Hx [= <-]. apply (E1 g); [done|done|lia|done|].
      by rewrite Hgp.
  - exists heap', pos'. split_and!; [done|done|lia|lia|done].
Qed.

Lemma _siftup_is_heap heap :
  0 < length heap → heap_except heap 0 →
  ∃ heap', heapq._siftup heap 0 = Ok heap' ∧ is_heap heap'.
Proof using lt_asym nlt_trans.
  intros Hpos Hexc. unfold heapq._siftup.
  destruct (list_getitem_lt heap 0 Hpos) as (newitem & Hn & ->). rsimpl.
  destruct (_siftup_loop_hole (length heap - 0) heap 0)
    as (heap1 & pos1 & -> & Hlen1 & Hleaf & Hexc1); [lia|done|done|].
  rsimpl. rewrite list_setitem_lt by lia. rsimpl.
  apply _siftdown_is_heap.
  - rewrite length_insert. lia.
  - by apply heap_except_insert.
  - intros c child x Hc Hcp Hchild.
    apply lookup_lt_Some in Hchild. rewrite length_insert in Hchild.
    destruct (parent_child c pos1 Hc Hcp); lia.
Qed.

Lemma heappush_is_heap heap item :
  is_heap heap →
  ∃ heap', heapq.heappush heap item = Ok heap' ∧ is_heap heap'.
Proof using lt_asym nlt_trans.
  intros Hheap. unfold heapq.heappush.
  rewrite length_app. simpl.
  replace (length heap + 1 - 1) with (length heap) by lia.
  apply _siftdown_is_heap.
  - rewrite length_app. simpl. lia.
  - split.
    + intros i child parent Hi Hne Hpar Hchild Hparent.
      assert (i < length heap).
      { apply lookup_lt_Some in Hchild. rewrite length_app in Hchild.
        simpl in Hchild. lia. }
      pose proof (parent_lt i Hi).
      rewrite lookup_app_l in Hchild, Hparent by lia.
      by apply (Hheap i).
    + intros c child grandparent _ Hc Hcp Hchild.
      apply lookup_lt_Some in Hchild. rewrite length_app in Hchild.
      simpl in Hchild. destruct (parent_child c _ Hc Hcp); lia.
  - intros c child newitem Hc Hcp Hchild.
    apply lookup_lt_Some in Hchild. rewrite length_app in Hchild.
    simpl in Hchild. destruct (parent_child c _ Hc Hcp); lia.
Qed.

Lemma is_heap_root_min heap root :
  is_heap heap → heap !! 0 = Some root →
  ∀ x, x ∈ heap → py_lt x root = false.
Proof using lt_asym nlt_trans.
  intros Hheap Hroot x [i Hi]%list_elem_of_lookup. revert x Hi.
  induction i as [i IH] using lt_wf_ind. intros x Hi.
  destruct (decide (i = 0)) as [->|Hne].
  { rewrite Hroot in Hi. injection Hi as <-. apply py_lt_irrefl. }
  pose proof (parent_lt i ltac:(lia)) as Hp.
  destruct (lookup_lt_is_Some_2 heap ((i - 1) / 2)) as [parent Hparent].
  { apply lookup_lt_Some in Hi. lia. }
  apply (nlt_trans _ parent).
  - by apply (IH ((i - 1) / 2)).
  - apply (Hheap i); [lia|done|done].
Qed.

Lemma heappop_is_heap heap :
  heap ≠ [] → is_heap heap →
  ∃ item heap',
    heapq.heappop heap = Ok (item, heap')
    ∧ is_heap heap'
    ∧ ∀ x, x ∈ heap → py_lt x item = false.
Proof using lt_asym nlt_trans.
  intros Hne Hheap.
  destruct (proj2 (last_is_Some heap) Hne) as [lastelt Hlast].
  apply last_Some in Hlast as [rest ->].
  unfold heapq.heappop. rewrite list_pop_snoc. rsimpl.
  destruct rest as [|returnitem rest].
  { exists lastelt, []. split_and!; [done| |].
    - intros i child parent _ Hi. by rewrite lookup_nil in Hi.
    - intros x ->%list_elem_of_singleton. apply py_lt_irrefl. }
  rewrite (list_getitem_Ok _ 0 returnitem) by done. rsimpl.
  rewrite list_setitem_lt by (simpl; lia). rsimpl.
  change (<[0:=lastelt]> (returnitem :: rest)) with (lastelt :: rest).
  destruct (_siftup_is_heap (lastelt :: rest)) as (heap' & -> & Hheap').
  { simpl. lia. }
  { split; [|intros; lia].
    intros i child parent Hi _ Hpar Hchild Hparent.
    destruct i as [|i]; [lia|].
    destruct ((S i - 1) / 2) as [|p] eqn:Hp; [done|].
    apply (Hheap (S i)); [lia| |].
    - apply lookup_lt_Some in Hchild as Hlt. simpl in Hlt.
      rewrite lookup_app_l by (simpl; lia). done.
    - rewrite Hp. apply lookup_lt_Some in Hparent as Hlt. simpl in Hlt.
      rewrite lookup_app_l by (simpl; lia). done. }
  rsimpl. exists returnitem, heap'. split_and!; [done|done|].
  by apply is_heap_root_min.
Qed.
End heap_order.

(** ** The greedy choice of [build_huffman_tree] *)

Lemma HuffmanNode_lt_asym (a b : HuffmanNode) :
  py_lt a b = true → py_lt b a = false.
Proof.
  unfold py_lt, HuffmanNode_lt. intros Hab%bool_decide_eq_true.
  apply bool_decide_eq_false. lia.
Qed.

Lemma HuffmanNode_nlt_trans (a b c : HuffmanNode) :
  py_lt b a = false → py_lt c b = false → py_lt c a = false.
Proof.
  unfold py_lt, HuffmanNode_lt.
  intros Hba%bool_decide_eq_false Hcb%bool_decide_eq_false.
  apply bool_decide_eq_false. lia.
Qed.

Lemma HuffmanNode_nlt_le (a b : HuffmanNode) :
  py_lt a b = false ↔ freq b ≤ freq a.
Proof.
  unfold py_lt, HuffmanNode_lt. rewrite bool_decide_eq_false. lia.
Qed.

Lemma is_heap_nil {A} `{PyLt A} : is_heap (@nil A).
Proof. intros i child parent _ Hi. by rewrite lookup_nil in Hi. Qed.

Lemma is_heap_singleton {A} `{PyLt A} (x : A) : is_heap [x].
Proof. intros [|i] child parent Hi Hc; [lia|done]. Qed.

Lemma heappush_HuffmanNode (heap : list HuffmanNode) (node : HuffmanNode) :
  is_heap heap →
  ∃ heap', heapq.heappush heap node = Ok heap'
           ∧ is_heap heap' ∧ heap' ≡ₚ node :: heap.
Proof.
  intros Hheap.
  destruct (heappush_is_heap HuffmanNode_lt_asym HuffmanNode_nlt_trans
              heap node Hheap) as (heap' & Hpush & Hheap').
  destruct (heappush_Permutation heap node) as (heap'' & Hpush' & Hperm).
  rewrite Hpush in Hpush'. injection Hpush' as <-. by exists heap'.
Qed.

Lemma heappop_HuffmanNode (heap : list HuffmanNode) :
  is_heap heap → heap ≠ [] →
  ∃ node heap', heapq.heappop heap = Ok (node, heap')
                ∧ is_heap heap' ∧ node :: heap' ≡ₚ heap
                ∧ ∀ x, x ∈ heap → freq node ≤ freq x.
Proof.
  intros Hheap Hne.
  destruct (heappop_is_heap HuffmanNode_lt_asym HuffmanNode_nlt_trans
              heap Hne Hheap) as (node & heap' & Hpop & Hheap' & Hmin).
  destruct (heappop_Permutation heap Hne) as (node' & heap'' & Hpop' & Hperm).
  rewrite Hpop in Hpop'. injection Hpop' as <- <-.
  exists node, heap'. split_and!; [done..|].
  intros x Hx. by apply HuffmanNode_nlt_le, Hmin.
Qed.

(** X12.  With [HuffmanNode.__lt__], [heappush] and [heappop] keep a heap
    of nodes a min-heap on [freq] and keep its nodes: [heappush] adds the
    node, and [heappop] on a non-empty heap removes and returns a node whose
    [freq] is the least of the heap. *)
Theorem heapq_min_heap_by_freq :
  ∀ heap : list HuffmanNode,
    is_heap heap →
    (∀ node, ∃ heap', heapq.heappush heap node = Ok heap'
                      ∧ is_heap heap' ∧ heap' ≡ₚ node :: heap)
    ∧ (heap ≠ [] →
       ∃ node heap', heapq.heappop heap = Ok (node, heap')
                     ∧ is_heap heap' ∧ node :: heap' ≡ₚ heap
                     ∧ ∀ x, x ∈ heap → freq node ≤ freq x).
Proof.
  intros heap Hheap. split.
  - intros node. by apply heappush_HuffmanNode.
  - intros Hne. by apply heappop_HuffmanNode.
Qed.

Lemma heapq_min_heap_by_freq_witness :
  (∀ node, ∃ heap', heapq.heappush [Leaf 7 4] node = Ok heap'
                    ∧ is_heap heap' ∧ heap' ≡ₚ node :: [Leaf 7 4])
  ∧ ([Leaf 7 4] ≠ [] →
     ∃ node heap', heapq.heappop [Leaf 7 4] = Ok (node, heap')
                   ∧ is_heap heap' ∧ node :: heap' ≡ₚ [Leaf 7 4]
                   ∧ ∀ x, x ∈ [Leaf 7 4] → freq node ≤ freq x).
Proof.
  apply (heapq_min_heap_by_freq [Leaf 7 4]).
  intros [|i] child parent Hi Hc; [lia|done].
Defined.

(** X13.  The heap that [build_huffman_tree] fills in its [for] loop is a
    min-heap on [freq] that holds one leaf for each entry of the frequency
    table. *)
Theorem build_huffman_tree_initial_heap :
  ∀ frequencies : dict Z nat,
    ∃ heap,
      for_ frequencies
        (λ heap '(value, freq), heapq.heappush heap (Leaf value freq)) []
      = Ok heap
      ∧ is_heap heap
      ∧ heap ≡ₚ (λ kv, Leaf kv.1 kv.2) <$> frequencies.
Proof.
  intros frequencies.
  assert (∀ heap0 : list HuffmanNode, is_heap heap0 →
    ∃ heap,
      for_ frequencies
        (λ heap '(value, freq), heapq.heappush heap (Leaf value freq)) heap0
      = Ok heap
      ∧ is_heap heap
      ∧ heap ≡ₚ heap0 ++ ((λ kv, Leaf kv.1 kv.2) <$> frequencies)) as Hloop.
  { induction frequencies as [|[value f] frequencies IH]; intros heap0 Hheap0.
    { exists heap0. simpl. by rewrite (right_id [] (++)). }
    simpl.
    destruct (heappush_HuffmanNode heap0 (Leaf value f) Hheap0)
      as (heap1 & -> & Hheap1 & Hperm1).
    rsimpl. destruct (IH heap1 Hheap1) as (heap & -> & Hheap & Hperm).
    exists heap. split_and!; [done|done|].
    rewrite Hperm, Hperm1. simpl. apply Permutation_middle. }
  apply (Hloop [] is_heap_nil).
Qed.

(** X14.  Every iteration of the [while] loop of [build_huffman_tree] on a
    min-heap takes out two nodes of least frequency, the first no more
    frequent than the second and the second no more frequent than any node
    left, puts back one internal node that has them as left and right child
    and the sum of their frequencies as [freq], and leaves a min-heap with
    one node less. *)
Theorem build_huffman_tree_greedy_step :
  ∀ (n : nat) (heap : list HuffmanNode),
    is_heap heap → 1 < length heap →
    ∃ node_l node_r rest heap',
      node_l :: node_r :: rest ≡ₚ heap
      ∧ (∀ x, x ∈ node_r :: rest → freq node_l ≤ freq x)
      ∧ (∀ x, x ∈ rest → freq node_r ≤ freq x)
      ∧ heap' ≡ₚ Internal (freq node_l + freq node_r) node_l node_r :: rest
      ∧ is_heap heap'
      ∧ build_huffman_tree_loop (S n) heap = build_huffman_tree_loop n heap'.
Proof.
  intros n heap Hheap Hlen. cbn [build_huffman_tree_loop].
  rewrite decide_True by done.
  destruct (heappop_HuffmanNode heap Hheap)
    as (node_l & heap1 & -> & Hheap1 & Hperm1 & Hmin1).
  { intros ->. simpl in Hlen. lia. }
  rsimpl. cbn [fst snd].
  destruct (heappop_HuffmanNode heap1 Hheap1)
    as (node_r & heap2 & -> & Hheap2 & Hperm2 & Hmin2).
  { intros ->. apply Permutation_length in Hperm1. simpl in Hperm1. lia. }
  rsimpl. cbn [fst snd].
  destruct (heappush_HuffmanNode heap2
              (Internal (freq node_l + freq node_r) node_l node_r) Hheap2)
    as (heap3 & -> & Hheap3 & Hperm3).
  rsimpl. exists node_l, node_r, heap2, heap3.
  split_and!; [|  | |done|done|done].
  - by rewrite Hperm2.
  - intros x Hx. apply Hmin1. rewrite <-Hperm1, <-Hperm2.
    by apply list_elem_of_further.
  - intros x Hx. apply Hmin2. rewrite <-Hperm2.
    by apply list_elem_of_further.
Qed.

Lemma build_huffman_tree_greedy_step_witness :
  ∃ node_l node_r rest heap',
    node_l :: node_r :: rest ≡ₚ [Leaf 2 1; Leaf 1 2; Leaf 3 1]
    ∧ (∀ x, x ∈ node_r :: rest → freq node_l ≤ freq x)
    ∧ (∀ x, x ∈ rest → freq node_r ≤ freq x)
    ∧ heap' ≡ₚ Internal (freq node_l + freq node_r) node_l node_r :: rest
    ∧ is_heap heap'
    ∧ build_huffman_tree_loop 3 [Leaf 2 1; Leaf 1 2; Leaf 3 1]
      = build_huffman_tree_loop 2 heap'.
Proof.
  apply (build_huffman_tree_greedy_step 2 [Leaf 2 1; Leaf 1 2; Leaf 3 1]).
  - intros [|[|[|i]]] child parent Hi Hc Hp; [lia| | |done];
      simpl in Hc, Hp; injection Hc as <-; injection Hp as <-;
      reflexivity.
  - simpl. lia.
Defined.

(** ** The codes of the pixels of the image *)

(** X15.  After a successful [compress], on a new or on a used instance,
    the codes that [self.huffman_codes] gives to the pixels of the image
    are made of the characters ['0'] and ['1'], and the codes of two
    different pixels are not empty and neither is a prefix of the other. *)
Theorem compress_codes_of_image :
  ∀ (self : ImageCompressor) (pixel_array : list Z) (size : nat * nat) r,
    compress self (pixel_array, size) = Ok r →
    ∀ p q cp cq,
      p ∈ pixel_array → q ∈ pixel_array →
      dict_get p (huffman_codes r.1.1) = Some cp →
      dict_get q (huffman_codes r.1.1) = Some cq →
      Forall is_bit cp
      ∧ (p ≠ q → cp ≠ [] ∧ ¬ cp `prefix_of` cq).
Proof.
  intros self pixel_array size r Hr p q cp cq Hp Hq.
  destruct (compress_Ok self pixel_array size)
    as (root & padding_byte & byte_array & ratio & Hleaves & Hbuild & Henc
        & Hsome & Hcompress & _).
  { intros ->. by apply elem_of_nil in Hp. }
  cbv zeta in *. rewrite Hcompress in Hr. injection Hr as <-.
  cbn [fst huffman_codes].
  assert (NoDup (tree_codes root []).*1) as Hnd.
  { rewrite tree_codes_keys, Hleaves. apply calculate_frequencies_NoDup. }
  assert (∀ x c, x ∈ pixel_array →
    dict_get x (dict_update (huffman_codes self) (tree_codes root []))
    = Some c → (x, c) ∈ tree_codes root []) as Hin.
  { intros x c Hx Hget. apply calculate_frequencies_keys in Hx.
    rewrite <-Hleaves, <-(tree_codes_keys root []) in Hx.
    apply list_elem_of_fmap in Hx as ([k c'] & -> & Hx). simpl in *.
    rewrite (dict_get_update_elem_of _ _ k c') in Hget by done.
    by injection Hget as <-. }
  intros Hcp%Hin Hcq%Hin; [|done..]. split.
  { by apply (tree_codes_all_bits root (p, cp)). }
  intros Hpq.
  destruct (leaves_two_Internal root) as (f & node_l & node_r & Hroot).
  { rewrite Hleaves. apply (two_elements_length _ p q); [| |done];
      by apply calculate_frequencies_keys. }
  split.
  - rewrite Hroot in Hcp.
    by apply (tree_codes_Internal_nonempty f node_l node_r (p, cp)).
  - intros Hpre. apply Hpq.
    by injection (tree_codes_prefix_free root [] _ _ Hcp Hcq Hpre).
Qed.

Lemma compress_codes_of_image_witness :
  ∃ r, compress __init__ ([1; 1; 2; 3]%Z, (2, 2)) = Ok r
       ∧ ∀ p q cp cq,
           p ∈ [1; 1; 2; 3]%Z → q ∈ [1; 1; 2; 3]%Z →
           dict_get p (huffman_codes r.1.1) = Some cp →
           dict_get q (huffman_codes r.1.1) = Some cq →
           Forall is_bit cp
           ∧ (p ≠ q → cp ≠ [] ∧ ¬ cp `prefix_of` cq).
Proof.
  eexists. split; [vm_compute; reflexivity|].
  apply (compress_codes_of_image __init__ [1; 1; 2; 3]%Z (2, 2)).
  vm_compute. reflexivity.
Defined.

(** ** The menu of [CompressorCLI] *)

Section menu.
Variable is_valid_image : string → bool * string * (nat * nat).

Let valid (file : string) : Prop := (is_valid_image file).1.1 = true.

Lemma list_input_files_loop (files : list string)
    (file_map : dict Z string) (choice_num : Z) :
  Forall (λ k, k < choice_num)%Z file_map.*1 →
  foldl (λ (st : dict Z string * Z) file,
           let '(file_map, choice_num) := st in
           let '(is_valid, error_msg, dimensions) := is_valid_image file in
           if is_valid
           then (dict_set choice_num file file_map, (choice_num + 1)%Z)
           else (file_map, choice_num))
        (file_map, choice_num) files
  = (file_map
     ++ zip (seqZ choice_num (Z.of_nat (length (filter valid files))))
            (filter valid files),
     (choice_num + Z.of_nat (length (filter valid files)))%Z).
Proof using Type.
  revert file_map choice_num.
  induction files as [|file files IH]; intros file_map choice_num Hkeys.
  { simpl. by rewrite (right_id [] (++)), Z.add_0_r. }
  cbn [foldl].
  destruct (is_valid_image file) as [[is_valid error_msg] dimensions] eqn:E.
  destruct is_valid.
  - rewrite filter_cons_True by (unfold valid; by rewrite E).
    rewrite IH.
    + rewrite dict_set_fresh.
      * rewrite length_cons, Nat2Z.inj_succ, (seqZ_cons choice_num) by lia.
        rewrite Z.pred_succ, Z.add_1_r, <-(assoc (++)).
        f_equal. lia.
      * intros Hin. rewrite list.Forall_forall in Hkeys.
        specialize (Hkeys _ Hin). lia.
    + rewrite dict_set_fresh.
      * rewrite fmap_app. apply Forall_app. split.
        -- eapply list.Forall_impl; [exact Hkeys|]. intros; simpl in *; lia.
        -- simpl. constructor; [lia|constructor].
      * intros Hin. rewrite list.Forall_forall in Hkeys.
        specialize (Hkeys _ Hin). lia.
  - rewrite filter_cons_False by (unfold valid; by rewrite E).
    by rewrite IH.
Qed.


Lemma py_lower_q (s : string) :
  py_lower s = "q"%string → s = "q"%string ∨ s = "Q"%string.
Proof.
  destruct s as [|c [|c' s]]; simpl; [done| |done].
  intros [= Hc]. destruct c as [[] [] [] [] [] [] [] []];
    vm_compute in Hc; first [discriminate Hc | by left | by right].
Qed.

Lemma py_str_not_q (k : Z) : py_lower (py_str k) ≠ "q"%string.
Proof.
  intros [E|E]%py_lower_q; pose proof (py_int_str k) as Hk;
    rewrite E in Hk; vm_compute in Hk; discriminate Hk.
Qed.

Lemma dict_get_zip_seqZ (l : list string) (start k : Z) :
  (start ≤ k < start + Z.of_nat (length l))%Z →
  ∃ x, dict_get k (zip (seqZ start (Z.of_nat (length l))) l) = Some x
       ∧ x ∈ l.
Proof using Type.
  revert start. induction l as [|x l IH]; intros start Hk; simpl in *; [lia|].
  rewrite Nat2Z.inj_succ, (seqZ_cons start), Z.pred_succ by lia.
  cbn [zip zip_with dict_get]. case_decide as Hstart.
  { exists x. split; [done|apply list_elem_of_here]. }
  destruct (IH (Z.succ start)) as (y & Hy & Hin); [lia|].
  exists y. split; [done|by apply list_elem_of_further].
Qed.

(** X17.  Every choice that [run] offers at the prompt is handled without
    an exception: ["q"] ends the loop, and every other choice is the
    number of an entry of the map of [list_input_files], whose file is a
    file of the directory that [is_valid_image] accepts. *)
Theorem menu_choice_selects :
  ∀ (files : list string) (file_map : dict Z string) (choice : string),
    list_input_files is_valid_image files = Returns file_map →
    choice ∈ menu_choices file_map →
    (choice = "q"%string ∧ run_select file_map choice = Ok None)
    ∨ (∃ input_file,
         run_select file_map choice = Ok (Some input_file)
         ∧ input_file ∈ files ∧ valid input_file).
Proof using Type.
  intros files file_map choice Hmap Hchoice.
  destruct files as [|file files]; [done|].
  set (dir := file :: files) in *. unfold list_input_files in Hmap.
  rewrite list_input_files_loop in Hmap by constructor.
  injection Hmap as <-. cbn [fst app] in *.
  unfold menu_choices in Hchoice.
  apply elem_of_app in Hchoice as [Hnum| ->%list_elem_of_singleton];
    [|by left].
  right.
  apply list_elem_of_fmap in Hnum as (k & -> & Hk).
  apply list_elem_of_fmap in Hk as (i & -> & Hi).
  apply elem_of_seq in Hi.
  rewrite length_zip, length_seqZ in Hi.
  unfold run_select. rewrite decide_False by apply py_str_not_q.
  rewrite py_int_str. rsimpl.
  destruct (dict_get_zip_seqZ (filter valid dir) 1 (Z.of_nat i))
    as (input_file & Hget & Hin); [lia|].
  rewrite (dict_getitem_Ok _ _ _ Hget). rsimpl.
  exists input_file. split; [done|].
  by apply list_elem_of_filter in Hin as [? ?].
Qed.
End menu.

Lemma menu_choice_selects_witness :
  (("1" : string) = "q"%string
   ∧ run_select [(1%Z, "a.png"%string)] "1" = Ok None)
  ∨ (∃ input_file,
       run_select [(1%Z, "a.png"%string)] "1" = Ok (Some input_file)
       ∧ input_file ∈ ["a.png"%string; "b.txt"%string]
       ∧ (if String.eqb input_file "a.png" then (true, ""%string, (2, 2))
          else (false, "Not an image file"%string, (0, 0))).1.1 = true).
Proof.
  apply (menu_choice_selects
           (λ file, if String.eqb file "a.png"
                    then (true, ""%string, (2, 2))
                    else (false, "Not an image file"%string, (0, 0)))
           ["a.png"%string; "b.txt"%string] [(1%Z, "a.png"%string)] "1").
  - vm_compute. reflexivity.
  - vm_compute. apply list_elem_of_here.
Defined.
